(** * kana-dojo: the scheduled dispatch endpoint and two display components

    A shallow embedding of
    - the POST handler of /api/trigger-community-issue (route file),
    - the statistics computed by [ClassicSessionSummary],
    - the grouping of conjugated forms computed by [ConjugationResults],
    followed by the properties proved about them. *)

From Stdlib Require Import List String Ascii ZArith Bool Lia Permutation.
From Stdlib Require Import DecimalString.
From Stdlib Require Import PrimFloat FloatOps SpecFloat FloatAxioms Uint63.
Import ListNotations.

Local Open Scope string_scope.

(* ================================================================== *)
(** * Values shared by the models *)
(* ================================================================== *)

Module Js.

(** The double quote, written by its code so that it can sit in a string. *)
Definition dquote : ascii := ascii_of_nat 34.
Definition backslash : ascii := ascii_of_nat 92.

(** JS truthiness of an optional string: [undefined] and [''] are falsy. *)
Definition truthy (v : option string) : bool :=
  match v with
  | None => false
  | Some s => negb (String.eqb s "")
  end.

(** [String(n)] for an integer number. *)
Definition string_of_Z (z : Z) : string :=
  NilZero.string_of_int (Z.to_int z).

(** The JSON values the route builds. *)
#[local] Set Warnings "-register-all".
Inductive Json : Type :=
| JString (s : string)
| JNumber (z : Z)
| JBool (b : bool)
| JObject (fields : list (string * Json)).

Definition hex_digit (n : nat) : ascii :=
  match n with
  | 0 => "0" | 1 => "1" | 2 => "2" | 3 => "3" | 4 => "4" | 5 => "5"
  | 6 => "6" | 7 => "7" | 8 => "8" | 9 => "9" | 10 => "a" | 11 => "b"
  | 12 => "c" | 13 => "d" | 14 => "e" | _ => "f"
  end%char.

(** The escape JSON.stringify writes for one character of a string. *)
Definition escape_char (c : ascii) : string :=
  let n := nat_of_ascii c in
  if Nat.eqb n 34 then String backslash (String dquote "")
  else if Nat.eqb n 92 then String backslash (String backslash "")
  else if Nat.eqb n 8 then String backslash "b"
  else if Nat.eqb n 12 then String backslash "f"
  else if Nat.eqb n 10 then String backslash "n"
  else if Nat.eqb n 13 then String backslash "r"
  else if Nat.eqb n 9 then String backslash "t"
  else if Nat.ltb n 32 then
    String backslash
      ("u00" ++ String (hex_digit (n / 16)) (String (hex_digit (n mod 16)) ""))
  else String c "".

Fixpoint escape (s : string) : string :=
  match s with
  | EmptyString => ""
  | String c rest => escape_char c ++ escape rest
  end.

Definition quote (s : string) : string :=
  String dquote (escape s ++ String dquote "").

(** [JSON.stringify] without indentation. *)
Fixpoint JSON_stringify (j : Json) : string :=
  match j with
  | JString s => quote s
  | JNumber z => string_of_Z z
  | JBool true => "true"
  | JBool false => "false"
  | JObject fields =>
      "{" ++
      (fix members (fs : list (string * Json)) : string :=
         match fs with
         | [] => ""
         | (k, v) :: [] => quote k ++ ":" ++ JSON_stringify v
         | (k, v) :: rest =>
             quote k ++ ":" ++ JSON_stringify v ++ "," ++ members rest
         end) fields
      ++ "}"
  end.

End Js.

(* ================================================================== *)
(** * The dispatch endpoint (POST /api/trigger-community-issue) *)
(* ================================================================== *)

Module Dispatch.
Import Js.

Definition WORKFLOW_FILE : string := "hourly-community-issue.yml".
Definition REPO_OWNER : string := "lingdojo".
Definition REPO_NAME : string := "kana-dojo".
Definition GITHUB_DISPATCH_TIMEOUT_MS : Z := 8000.

(** [process.env]: the two variables the handler reads. *)
Record Env : Type := mkEnv {
  CRON_SECRET : option string;
  GITHUB_PAT : option string
}.

(** The inbound request: what [request.headers.get('authorization')]
    returns, [None] standing for [null]. *)
Record Request : Type := mkRequest {
  authorization : option string
}.

(** The argument of the outbound [fetch]. *)
Record FetchInit : Type := mkInit {
  method : string;
  headers : list (string * string);
  body : string;
  signal_timeout : Z
}.

Record FetchCall : Type := mkCall {
  url : string;
  init : FetchInit
}.

(** A value thrown by [fetch]: an [Error] with its message, or any other
    value with the string [String(value)] gives. *)
Inductive Thrown : Type :=
| ThrownError (message : string)
| ThrownOther (as_string : string).

(** The upstream [Response]: its status and what [text()] settles to,
    [None] when reading the body rejects. *)
Record Response : Type := mkResponse {
  status : Z;
  text : option string
}.

(** [Response.ok]: the status is in the range 200-299. *)
Definition ok (r : Response) : bool :=
  (200 <=? status r)%Z && (status r <=? 299)%Z.

Inductive FetchOutcome : Type :=
| Resolved (r : Response)
| Rejected (e : Thrown).

(** What [NextResponse.json(body, { status })] builds. *)
Record NextResponse : Type := mkNextResponse {
  res_status : Z;
  res_body : Json
}.

(** The world of one invocation: the upstream behind [fetch], the outbound
    calls issued so far and the lines written by [console.error], both
    oldest first. *)
Record World : Type := mkWorld {
  upstream : FetchCall -> FetchOutcome;
  calls : list FetchCall;
  console : list string
}.

Definition IO (A : Type) : Type := World -> A * World.

Definition ret {A : Type} (a : A) : IO A := fun w => (a, w).

Definition bind {A B : Type} (m : IO A) (k : A -> IO B) : IO B :=
  fun w => let (a, w') := m w in k a w'.

Notation "x <- m ;; k" := (bind m (fun x => k))
  (at level 61, m at next level, right associativity).
Notation "m ;;; k" := (bind m (fun _ => k))
  (at level 61, right associativity).

(** [await fetch(url, init)] under [try]: the call is recorded and the
    upstream decides whether it resolves or throws. *)
Definition fetch (u : string) (i : FetchInit) : IO FetchOutcome :=
  fun w =>
    let c := mkCall u i in
    (upstream w c, mkWorld (upstream w) (calls w ++ [c]) (console w)).

Definition console_error (line : string) : IO unit :=
  fun w => (tt, mkWorld (upstream w) (calls w) (console w ++ [line])).

(** [await response.text().catch(() => '')]. *)
Definition text_or_empty (r : Response) : string :=
  match text r with
  | Some b => b
  | None => ""
  end.

(** [error instanceof Error ? error.message : String(error)]. *)
Definition detail_of (e : Thrown) : string :=
  match e with
  | ThrownError m => m
  | ThrownOther s => s
  end.

Definition json (b : Json) (st : Z) : IO NextResponse :=
  ret (mkNextResponse st b).

Definition dispatch_url : string :=
  "https://api.github.com/repos/" ++ REPO_OWNER ++ "/" ++ REPO_NAME
  ++ "/actions/workflows/" ++ WORKFLOW_FILE ++ "/dispatches".

Definition dispatch_init (githubPat : string) : FetchInit :=
  mkInit "POST"
    [ ("Authorization", "Bearer " ++ githubPat);
      ("Accept", "application/vnd.github+json");
      ("X-GitHub-Api-Version", "2022-11-28");
      ("Content-Type", "application/json") ]
    (JSON_stringify (JObject [("ref", JString "main")]))
    GITHUB_DISPATCH_TIMEOUT_MS.

Definition header_matches (authHeader : option string) (cronSecret : string)
  : bool :=
  match authHeader with
  | Some h => String.eqb h ("Bearer " ++ cronSecret)
  | None => false
  end.

(** The handler, branch for branch.  An environment variable is read as an
    optional string; [if (!value)] returns early both when it is unset and
    when it is empty, and past that test the value is a string. *)
Definition POST (env : Env) (request : Request) : IO NextResponse :=
  match CRON_SECRET env with
  | None => json (JObject [("error", JString "Cron not configured")]) 500
  | Some cronSecret =>
    if negb (truthy (Some cronSecret)) then
      json (JObject [("error", JString "Cron not configured")]) 500
    else
    let authHeader := authorization request in
    if negb (header_matches authHeader cronSecret) then
      json (JObject [("error", JString "Unauthorized")]) 401
    else
    match GITHUB_PAT env with
    | None =>
        json (JObject [("error", JString "GITHUB_PAT not configured")]) 500
    | Some githubPat =>
      if negb (truthy (Some githubPat)) then
        json (JObject [("error", JString "GITHUB_PAT not configured")]) 500
      else
      outcome <- fetch dispatch_url (dispatch_init githubPat) ;;
      match outcome with
      | Rejected error =>
          let detail := detail_of error in
          console_error
            ("[trigger-community-issue] GitHub dispatch request failed: "
             ++ detail) ;;;
          json (JObject [("error", JString "GitHub dispatch request failed");
                         ("detail", JString detail)]) 504
      | Resolved response =>
          if negb (ok response) then
            let body := text_or_empty response in
            console_error
              ("[trigger-community-issue] GitHub API error "
               ++ string_of_Z (status response) ++ ": " ++ body) ;;;
            json (JObject [("error", JString "GitHub API error");
                           ("githubStatus", JNumber (status response));
                           ("githubBody", JString body)]) 502
          else
            json (JObject [("ok", JBool true)]) 200
      end
    end
  end.

(** One invocation against an upstream, starting with no call issued and
    nothing logged. *)
Definition fresh (net : FetchCall -> FetchOutcome) : World :=
  mkWorld net [] [].

Definition invoke (env : Env) (request : Request)
  (net : FetchCall -> FetchOutcome) : NextResponse * World :=
  POST env request (fresh net).

Definition response_of (env : Env) (request : Request)
  (net : FetchCall -> FetchOutcome) : NextResponse :=
  fst (invoke env request net).

Definition calls_of (env : Env) (request : Request)
  (net : FetchCall -> FetchOutcome) : list FetchCall :=
  calls (snd (invoke env request net)).

(** An environment variable is configured when it is set to a non-empty
    string, the only values that pass [if (!value)]. *)
Definition configured (v : option string) (s : string) : Prop :=
  v = Some s /\ s <> "".

(** ** The request as it is sent

    The handler never sees the Authorization field as the caller wrote it:
    the platform's [Headers] stores a value with its leading and trailing
    HTTP whitespace (TAB, LF, CR, SP) removed, and
    [request.headers.get('authorization')] returns the stored value, or
    [null] when the field is absent. *)
Record InboundRequest : Type := mkInbound {
  sent_authorization : option string
}.

Definition is_http_whitespace (c : ascii) : bool :=
  let n := nat_of_ascii c in
  Nat.eqb n 9 || Nat.eqb n 10 || Nat.eqb n 13 || Nat.eqb n 32.

Fixpoint strip_leading (s : string) : string :=
  match s with
  | EmptyString => EmptyString
  | String c rest => if is_http_whitespace c then strip_leading rest else s
  end.

Fixpoint strip_trailing (s : string) : string :=
  match s with
  | EmptyString => EmptyString
  | String c rest =>
      match strip_trailing rest with
      | EmptyString =>
          if is_http_whitespace c then EmptyString else String c EmptyString
      | kept => String c kept
      end
  end.

(** The normalisation of a header value. *)
Definition normalize_value (s : string) : string :=
  strip_trailing (strip_leading s).

(** [request.headers.get('authorization')] on the request as sent. *)
Definition headers_get_authorization (inbound : InboundRequest)
  : option string :=
  match sent_authorization inbound with
  | Some v => Some (normalize_value v)
  | None => None
  end.

(** The [Request] the handler is given for a request as sent. *)
Definition as_read (inbound : InboundRequest) : Request :=
  mkRequest (headers_get_authorization inbound).

(** One invocation for a request as sent. *)
Definition serve (env : Env) (inbound : InboundRequest)
  (net : FetchCall -> FetchOutcome) : NextResponse * World :=
  invoke env (as_read inbound) net.

End Dispatch.

(* ================================================================== *)
(** * ClassicSessionSummary: the statistics of a finished session *)
(* ================================================================== *)

Module Summary.

Local Open Scope float_scope.

(** A JS number is an IEEE 754 binary64 value, as is a primitive [float]. *)
Definition number : Set := float.

(** [Math.round]: the integer closest to [x], ties going towards +infinity;
    NaN, the infinities, the zeros and integral values are returned as they
    are, and a result of zero keeps the sign of [x].  The value of a finite
    [x] is [(-1)^s * m * 2^e]; for [e < 0] it is below [2^52], so the
    rounded integer is converted exactly. *)
Definition Math_round (x : number) : number :=
  match Prim2SF x with
  | S754_finite s m e =>
      if (0 <=? e)%Z then x
      else
        let d := (2 ^ (- e))%Z in
        let n := if s then Z.neg m else Z.pos m in
        let k := ((2 * n + d) / (2 * d))%Z in
        if (k =? 0)%Z then (if s then neg_zero else zero)
        else if (k <? 0)%Z then - of_uint63 (Uint63.of_Z (- k))
        else of_uint63 (Uint63.of_Z k)
  | _ => x
  end.

(** [const total = correct + wrong]. *)
Definition total (correct wrong : number) : number := correct + wrong.

(** [const accuracy = total > 0 ? Math.round((correct / total) * 100) : 0]. *)
Definition accuracy (correct wrong : number) : number :=
  let total := total correct wrong in
  if 0 <? total then Math_round ((correct / total) * 100) else 0.

(** The value handed to a [StatCard]: a number, or the template string
    made of a number followed by the percent sign. *)
Inductive StatValue : Set :=
| Plain (n : number)
| Percent (n : number).

Record Props : Set := mkProps {
  correct : number;
  wrong : number;
  bestStreak : number;
  stars : number
}.

(** The six stat cards, in the order they are rendered. *)
Definition stat_cards (p : Props) : list (string * StatValue) :=
  let total := total (correct p) (wrong p) in
  let accuracy := accuracy (correct p) (wrong p) in
  [ ("Correct"%string, Plain (correct p));
    ("Wrong"%string, Plain (wrong p));
    ("Accuracy"%string, Percent accuracy);
    ("Best Streak"%string, Plain (bestStreak p));
    ("Stars"%string, Plain (stars p));
    ("Attempts"%string, Plain total) ].

Fixpoint stat (label : string) (cards : list (string * StatValue))
  : option StatValue :=
  match cards with
  | [] => None
  | (l, v) :: rest => if String.eqb l label then Some v else stat label rest
  end.

(** A number that is neither NaN nor negative: [0 <= x] holds. *)
Definition non_negative (x : number) : Prop := (0 <=? x) = true.

(** Classes of binary64 values, read on the specification side. *)
Definition sign_is (s : bool) (x : spec_float) : Prop :=
  match x with
  | S754_nan => False
  | S754_zero s' | S754_infinity s' | S754_finite s' _ _ => s' = s
  end.

Definition not_nan (x : spec_float) : Prop := x <> S754_nan.

Definition nonneg_sf (x : spec_float) : Prop :=
  match x with
  | S754_zero _ => True
  | S754_infinity s | S754_finite s _ _ => s = false
  | S754_nan => False
  end.

Definition finite_sf (x : spec_float) : Prop :=
  match x with
  | S754_zero _ | S754_finite _ _ _ => True
  | _ => False
  end.

Definition positive_sf (x : spec_float) : Prop :=
  match x with
  | S754_finite false _ _ | S754_infinity false => True
  | _ => False
  end.

End Summary.

(* ================================================================== *)
(** * ConjugationResults: the forms grouped by category *)
(* ================================================================== *)

Module Conjugation.

Local Open Scope list_scope.

Section Grouping.

(** The declarations of ../types are taken as parameters: the category of
    a form (a union of string literals, compared as [Map] keys are), the
    form itself with its [category] field, the verb, and the table
    [ALL_CONJUGATION_CATEGORIES]. *)
Variable Category : Type.
Variable Category_eq_dec : forall a b : Category, {a = b} + {a <> b}.
Variable ConjugationForm : Type.
Variable category : ConjugationForm -> Category.
Variable Verb : Type.
Variable ALL_CONJUGATION_CATEGORIES : list Category.

Record ConjugationResult : Type := mkResult {
  verb : Verb;
  forms : list ConjugationForm
}.

(** A [Map<CategoryType, ConjugationForm[]>]: the entries in insertion
    order, each key held once. *)
Definition CategoryMap : Type := list (Category * list ConjugationForm).

Definition same_category (a b : Category) : bool :=
  if Category_eq_dec a b then true else false.

(** [Map.prototype.get]. *)
Fixpoint Map_get (m : CategoryMap) (k : Category)
  : option (list ConjugationForm) :=
  match m with
  | [] => None
  | (k', v) :: rest => if same_category k' k then Some v else Map_get rest k
  end.

(** [Map.prototype.set]: an existing key keeps its place and takes the new
    value; a new key is added after the others. *)
Fixpoint Map_set (m : CategoryMap) (k : Category) (v : list ConjugationForm)
  : CategoryMap :=
  match m with
  | [] => [(k, v)]
  | (k', v') :: rest =>
      if same_category k' k then (k', v) :: rest
      else (k', v') :: Map_set rest k v
  end.

(** [x || []] for an array or [undefined]. *)
Definition or_empty (o : option (list ConjugationForm)) : list ConjugationForm :=
  match o with
  | Some l => l
  | None => []
  end.

(** The body of the loop over [result.forms]. *)
Definition add_form (grouped : CategoryMap) (form : ConjugationForm)
  : CategoryMap :=
  let existing := or_empty (Map_get grouped (category form)) in
  Map_set grouped (category form) (existing ++ [form]).

(** The loop: a new [Map] filled by one turn per form, in order. *)
Definition group_forms (fs : list ConjugationForm) : CategoryMap :=
  fold_left add_form fs [].

(** The [formsByCategory] memo. *)
Definition formsByCategory (result : option ConjugationResult) : CategoryMap :=
  match result with
  | None => []
  | Some r => group_forms (forms r)
  end.

(** [formsByCategory.get(cat)?.length ?? 0]. *)
Definition bucket_length (m : CategoryMap) (cat : Category) : nat :=
  match Map_get m cat with
  | Some l => List.length l
  | None => 0
  end.

(** The [categoriesWithForms] memo. *)
Definition categoriesWithForms (m : CategoryMap) : list Category :=
  filter (fun cat => Nat.ltb 0 (bucket_length m cat))
    ALL_CONJUGATION_CATEGORIES.

(** What the category list renders: one [ConjugationCategory] per member of
    [categoriesWithForms], with [formsByCategory.get(category) || []]. *)
Definition rendered (result : option ConjugationResult)
  : list (Category * list ConjugationForm) :=
  let m := formsByCategory result in
  map (fun cat => (cat, or_empty (Map_get m cat))) (categoriesWithForms m).

(** The forms of a list that belong to a category, in the list's order. *)
Definition of_category (c : Category) (fs : list ConjugationForm)
  : list ConjugationForm :=
  filter (fun f => same_category (category f) c) fs.

Definition forms_of (result : option ConjugationResult)
  : list ConjugationForm :=
  match result with
  | None => []
  | Some r => forms r
  end.

End Grouping.

Arguments mkResult {ConjugationForm Verb} verb forms.
Arguments verb {ConjugationForm Verb} c.
Arguments forms {ConjugationForm Verb} c.
Arguments same_category {Category} Category_eq_dec a b.
Arguments Map_get {Category} Category_eq_dec {ConjugationForm} m k.
Arguments Map_set {Category} Category_eq_dec {ConjugationForm} m k v.
Arguments or_empty {ConjugationForm} o.
Arguments add_form {Category} Category_eq_dec {ConjugationForm} category
  grouped form.
Arguments group_forms {Category} Category_eq_dec {ConjugationForm} category
  fs.
Arguments formsByCategory {Category} Category_eq_dec {ConjugationForm}
  category {Verb} result.
Arguments bucket_length {Category} Category_eq_dec {ConjugationForm} m cat.
Arguments categoriesWithForms {Category} Category_eq_dec {ConjugationForm}
  ALL_CONJUGATION_CATEGORIES m.
Arguments rendered {Category} Category_eq_dec {ConjugationForm} category
  {Verb} ALL_CONJUGATION_CATEGORIES result.
Arguments of_category {Category} Category_eq_dec {ConjugationForm} category
  c fs.
Arguments forms_of {ConjugationForm Verb} result.

End Conjugation.

(* ================================================================== *)
(** * ConjugationResults: what is shown around the grouping *)
(* ================================================================== *)

Module ResultsView.
Import Conjugation.

Local Open Scope list_scope.

Section View.

Variable Category : Type.
Variable Category_eq_dec : forall a b : Category, {a = b} + {a <> b}.
Variable ConjugationForm : Type.
Variable category : ConjugationForm -> Category.
Variable Verb : Type.
Variable dictionaryForm : Verb -> string.
Variable ALL_CONJUGATION_CATEGORIES : list Category.

(** [expandedCategories.includes(cat)]. *)
Definition includes (expandedCategories : list Category) (cat : Category)
  : bool :=
  existsb (fun x => same_category Category_eq_dec x cat) expandedCategories.

(** The [allExpanded] memo:
    [categoriesWithForms.every(cat => expandedCategories.includes(cat))]. *)
Definition allExpanded (categoriesWithForms expandedCategories : list Category)
  : bool :=
  forallb (fun cat => includes expandedCategories cat) categoriesWithForms.

(** The callback the expand/collapse button is wired to:
    [allExpanded ? onCollapseAll : onExpandAll]. *)
Inductive Callback : Set :=
| onExpandAll
| onCollapseAll.

Definition toggle_onClick (all_expanded : bool) : Callback :=
  if all_expanded then onCollapseAll else onExpandAll.

(** The three things the component returns: the loading state, the
    no-result state, or the results with one section per rendered category
    and the footer's [result.forms.length]. *)
Inductive View : Type :=
| LoadingState
| NoResultState
| Results (sections : list (Category * list ConjugationForm))
    (total_transformations : nat).

Definition view (result : option (ConjugationResult ConjugationForm Verb))
  (isLoading : bool) : View :=
  if isLoading then LoadingState
  else
    match result with
    | None => NoResultState
    | Some r =>
        Results
          (rendered Category_eq_dec category ALL_CONJUGATION_CATEGORIES
             (Some r))
          (List.length (forms r))
    end.

(** A result as the effect sees it: an object, compared by reference. *)
Record ResultObject : Type := mkObject {
  address : nat;
  content : ConjugationResult ConjugationForm Verb
}.

(** [statusMessage] and [previousResultRef.current] ([None] for null). *)
Record Announcer : Type := mkAnnouncer {
  statusMessage : string;
  previousResultRef : option nat
}.

(** [String(n)] for a length. *)
Definition string_of_nat (n : nat) : string :=
  NilZero.string_of_uint (Nat.to_uint n).

Definition same_object (o : ResultObject) (current : option nat) : bool :=
  match current with
  | Some a => Nat.eqb (address o) a
  | None => false
  end.

(** The body of the effect that updates the status message. *)
Definition status_effect (st : Announcer) (result : option ResultObject)
  (isLoading : bool) : Announcer :=
  let waiting :=
    if isLoading then
      mkAnnouncer "Conjugating verb, please wait..." (previousResultRef st)
    else st in
  match result with
  | Some o =>
      if negb (same_object o (previousResultRef st)) then
        let r := content o in
        let categories :=
          categoriesWithForms Category_eq_dec ALL_CONJUGATION_CATEGORIES
            (formsByCategory Category_eq_dec category (Some r)) in
        mkAnnouncer
          ("Conjugation complete for " ++ dictionaryForm (verb r) ++ ". "
           ++ string_of_nat (List.length (forms r))
           ++ " forms available across "
           ++ string_of_nat (List.length categories) ++ " categories.")%string
          (Some (address o))
      else waiting
  | None => waiting
  end.

End View.

Arguments LoadingState {Category ConjugationForm}.
Arguments NoResultState {Category ConjugationForm}.
Arguments Results {Category ConjugationForm} sections total_transformations.
Arguments mkObject {ConjugationForm Verb} address content.
Arguments address {ConjugationForm Verb} r.
Arguments content {ConjugationForm Verb} r.
Arguments includes {Category} Category_eq_dec expandedCategories cat.
Arguments allExpanded {Category} Category_eq_dec categoriesWithForms
  expandedCategories.
Arguments view {Category} Category_eq_dec {ConjugationForm} category {Verb}
  ALL_CONJUGATION_CATEGORIES result isLoading.
Arguments same_object {ConjugationForm Verb} o current.
Arguments status_effect {Category} Category_eq_dec {ConjugationForm} category
  {Verb} dictionaryForm ALL_CONJUGATION_CATEGORIES st result isLoading.

End ResultsView.

(* ================================================================== *)
(** * ConjugatorInput: the verb input, its keys and its messages *)
(* ================================================================== *)

Module ConjugatorInput.

Local Open Scope list_scope.

(** The input value is a JS string: a sequence of UTF-16 code units. *)
Definition code_unit : Set := N.
Definition JsString : Set := list code_unit.

(** The code units [String.prototype.trim] strips: the white space and
    line terminator code points of ECMAScript, all in the basic plane
    (TAB, LF, VT, FF, CR, SP, NBSP, U+1680, U+2000..U+200A, U+2028,
    U+2029, U+202F, U+205F, U+3000, U+FEFF). *)
Definition is_white_space (c : code_unit) : bool :=
  existsb (N.eqb c)
    [9; 10; 11; 12; 13; 32; 160; 5760; 8232; 8233; 8239; 8287; 12288;
     65279]%N
  || ((8192 <=? c)%N && (c <=? 8202)%N).

(** [trimStart]. *)
Fixpoint trimStart (s : JsString) : JsString :=
  match s with
  | [] => []
  | c :: rest => if is_white_space c then trimStart rest else s
  end.

(** [trimEnd]. *)
Definition trimEnd (s : JsString) : JsString := rev (trimStart (rev s)).

(** [String.prototype.trim]. *)
Definition trim (s : JsString) : JsString := trimEnd (trimStart s).

(** [const isDisabled = isLoading]. *)
Definition isDisabled (isLoading : bool) : bool := isLoading.

(** [const canConjugate = value.trim().length > 0 && !isLoading]. *)
Definition canConjugate (value : JsString) (isLoading : bool) : bool :=
  Nat.ltb 0 (List.length (trim value)) && negb isLoading.

(** The Conjugate button: [disabled={!canConjugate}]. *)
Definition button_disabled (value : JsString) (isLoading : bool) : bool :=
  negb (canConjugate value isLoading).

(** The clear button is rendered when [value.length > 0 && !isDisabled]. *)
Definition clear_button_rendered (value : JsString) (isLoading : bool)
  : bool :=
  Nat.ltb 0 (List.length value) && negb (isDisabled isLoading).

(** What a handler does, in order. *)
Inductive Action : Set :=
| preventDefault
| onConjugate
| onChange (value : JsString)
| focus.

(** [handleKeyDown], by [e.key]. *)
Definition handleKeyDown (value : JsString) (isLoading : bool) (key : string)
  : list Action :=
  if String.eqb key "Enter" then
    preventDefault
    :: (if canConjugate value isLoading then [onConjugate] else [])
  else if String.eqb key "Escape" then
    preventDefault
    :: (if Nat.ltb 0 (List.length value) then [onChange []] else [])
  else [].

(** [handleChange], by [e.target.value]. *)
Definition handleChange (target_value : JsString) : list Action :=
  [onChange target_value].

(** [handleClear]. *)
Definition handleClear : list Action := [onChange []; focus].

(** A [ConjugationError] of ../types, as far as it is read here: its code
    and its message, [None] for a message that is not set. *)
Record ConjugationError : Set := mkError {
  code : string;
  message : option string
}.

(** [error.message || fallback]. *)
Definition message_or (error : ConjugationError) (fallback : string)
  : string :=
  match message error with
  | Some m => if Js.truthy (Some m) then m else fallback
  | None => fallback
  end.

Definition getErrorMessage (error : ConjugationError) : string :=
  if String.eqb (code error) "EMPTY_INPUT" then
    "Please enter a Japanese verb"
  else if String.eqb (code error) "INVALID_CHARACTERS" then
    "Please enter a valid Japanese verb using hiragana, katakana, or kanji"
  else if String.eqb (code error) "UNKNOWN_VERB" then
    "This verb is not recognized. Please check the spelling or try the dictionary form"
  else if String.eqb (code error) "AMBIGUOUS_VERB" then
    "This input could be multiple verbs. Please be more specific"
  else if String.eqb (code error) "CONJUGATION_FAILED" then
    message_or error "An unexpected error occurred"
  else
    message_or error "An error occurred".

(** The accessibility attributes of the input and the ids of the elements
    rendered beside it: the hint always, the alert when there is an
    error. *)
Definition aria_describedby (error : option ConjugationError) : string :=
  match error with
  | Some _ => "input-error verb-input-hint"
  | None => "verb-input-hint"
  end.

Definition aria_invalid (error : option ConjugationError) : bool :=
  match error with
  | Some _ => true
  | None => false
  end.

Definition rendered_ids (error : option ConjugationError) : list string :=
  "verb-input-hint"
  :: match error with
     | Some _ => ["input-error"]
     | None => []
     end.

(** The alert's text, when the alert is rendered. *)
Definition alert_text (error : option ConjugationError) : option string :=
  match error with
  | Some e => Some (getErrorMessage e)
  | None => None
  end.

(** The tokens of a space-separated list of ids. *)
Fixpoint tokens_from (current : string) (s : string) : list string :=
  match s with
  | EmptyString =>
      match current with
      | EmptyString => []
      | _ => [current]
      end
  | String c rest =>
      if Ascii.eqb c " " then
        match current with
        | EmptyString => tokens_from EmptyString rest
        | _ => current :: tokens_from EmptyString rest
        end
      else tokens_from (current ++ String c EmptyString)%string rest
  end.

Definition id_tokens (s : string) : list string := tokens_from EmptyString s.

End ConjugatorInput.

(* ================================================================== *)
(** * Properties of the dispatch endpoint *)
(* ================================================================== *)

Module DispatchFacts.
Import Js Dispatch.

Lemma truthy_configured (v : option string) (s : string) :
  configured v s -> truthy v = true.
Proof.
  intros [-> Hne]. simpl.
  destruct (String.eqb_spec s ""); [contradiction | reflexivity].
Qed.

Lemma truthy_false_cases (v : option string) :
  truthy v = false <-> v = None \/ v = Some "".
Proof.
  destruct v as [s|]; simpl; split.
  - destruct (String.eqb_spec s ""); [subst; auto | discriminate].
  - intros [H | H]; [discriminate | now inversion H].
  - auto.
  - reflexivity.
Qed.

Lemma header_matches_iff (h : option string) (s : string) :
  header_matches h s = true <-> h = Some ("Bearer " ++ s).
Proof.
  destruct h as [h|]; simpl.
  - rewrite String.eqb_eq. split; [now intros -> | now inversion 1].
  - split; discriminate.
Qed.

Lemma header_mismatch (h : option string) (s : string) :
  h <> Some ("Bearer " ++ s) -> header_matches h s = false.
Proof.
  intros Hne. destruct (header_matches h s) eqn:E; [| reflexivity].
  apply header_matches_iff in E. contradiction.
Qed.

(** The handler with an unusable CRON_SECRET stops at the first gate. *)
Lemma invoke_secret_missing env request net :
  truthy (CRON_SECRET env) = false ->
  invoke env request net =
    (mkNextResponse 500 (JObject [("error", JString "Cron not configured")]),
     fresh net).
Proof.
  unfold invoke, POST. destruct (CRON_SECRET env) as [s|]; [| reflexivity].
  intros ->. reflexivity.
Qed.

(** With a secret configured and another header it stops at the second. *)
Lemma invoke_unauthorized env request net s :
  configured (CRON_SECRET env) s ->
  header_matches (authorization request) s = false ->
  invoke env request net =
    (mkNextResponse 401 (JObject [("error", JString "Unauthorized")]),
     fresh net).
Proof.
  intros Hs Hh. pose proof (truthy_configured _ _ Hs) as Ht.
  destruct Hs as [Hs _]. unfold invoke, POST.
  rewrite Hs in *. rewrite Ht, Hh. reflexivity.
Qed.

(** With the first two gates passed and no usable token, at the third. *)
Lemma invoke_token_missing env request net s :
  configured (CRON_SECRET env) s ->
  header_matches (authorization request) s = true ->
  truthy (GITHUB_PAT env) = false ->
  invoke env request net =
    (mkNextResponse 500
       (JObject [("error", JString "GITHUB_PAT not configured")]),
     fresh net).
Proof.
  intros Hs Hh Hp. pose proof (truthy_configured _ _ Hs) as Ht.
  destruct Hs as [Hs _]. unfold invoke, POST.
  rewrite Hs in *. rewrite Ht, Hh. simpl negb. cbv iota.
  destruct (GITHUB_PAT env) as [p|]; [| reflexivity].
  rewrite Hp. reflexivity.
Qed.

(** Past the three gates the handler is the one [fetch] and the answer
    chosen by its outcome. *)
Ltac through_gates Hs Hh Hp :=
  let Ht := fresh "Ht" in
  let Htp := fresh "Htp" in
  pose proof (truthy_configured _ _ Hs) as Ht;
  pose proof (truthy_configured _ _ Hp) as Htp;
  apply header_matches_iff in Hh;
  destruct Hs as [Hs _], Hp as [Hp _];
  unfold invoke, POST; rewrite Hs, Hp in *;
  rewrite Ht, Hh, Htp; cbn [negb];
  unfold bind, fetch, fresh; cbn [upstream calls console app].

Lemma invoke_rejected env request net s p error :
  configured (CRON_SECRET env) s ->
  authorization request = Some ("Bearer " ++ s) ->
  configured (GITHUB_PAT env) p ->
  net (mkCall dispatch_url (dispatch_init p)) = Rejected error ->
  invoke env request net =
    (mkNextResponse 504
       (JObject [("error", JString "GitHub dispatch request failed");
                 ("detail", JString (detail_of error))]),
     mkWorld net [mkCall dispatch_url (dispatch_init p)]
       ["[trigger-community-issue] GitHub dispatch request failed: "
        ++ detail_of error]).
Proof.
  intros Hs Hh Hp Hnet. through_gates Hs Hh Hp.
  rewrite Hnet. reflexivity.
Qed.

Lemma invoke_upstream_error env request net s p response :
  configured (CRON_SECRET env) s ->
  authorization request = Some ("Bearer " ++ s) ->
  configured (GITHUB_PAT env) p ->
  net (mkCall dispatch_url (dispatch_init p)) = Resolved response ->
  ok response = false ->
  invoke env request net =
    (mkNextResponse 502
       (JObject [("error", JString "GitHub API error");
                 ("githubStatus", JNumber (status response));
                 ("githubBody", JString (text_or_empty response))]),
     mkWorld net [mkCall dispatch_url (dispatch_init p)]
       ["[trigger-community-issue] GitHub API error "
        ++ string_of_Z (status response) ++ ": "
        ++ text_or_empty response]).
Proof.
  intros Hs Hh Hp Hnet Hok. through_gates Hs Hh Hp.
  rewrite Hnet, Hok. reflexivity.
Qed.

Lemma invoke_success env request net s p response :
  configured (CRON_SECRET env) s ->
  authorization request = Some ("Bearer " ++ s) ->
  configured (GITHUB_PAT env) p ->
  net (mkCall dispatch_url (dispatch_init p)) = Resolved response ->
  ok response = true ->
  invoke env request net =
    (mkNextResponse 200 (JObject [("ok", JBool true)]),
     mkWorld net [mkCall dispatch_url (dispatch_init p)] []).
Proof.
  intros Hs Hh Hp Hnet Hok. through_gates Hs Hh Hp.
  rewrite Hnet, Hok. reflexivity.
Qed.

(** Whatever the upstream does, the calls issued past the gates are the
    one dispatch call. *)
Lemma calls_dispatch env request net s p :
  configured (CRON_SECRET env) s ->
  authorization request = Some ("Bearer " ++ s) ->
  configured (GITHUB_PAT env) p ->
  calls_of env request net = [mkCall dispatch_url (dispatch_init p)].
Proof.
  intros Hs Hh Hp. unfold calls_of.
  destruct (net (mkCall dispatch_url (dispatch_init p))) as [r | e] eqn:Hnet.
  - destruct (ok r) eqn:Hok.
    + now rewrite (invoke_success _ _ _ _ _ _ Hs Hh Hp Hnet Hok).
    + now rewrite (invoke_upstream_error _ _ _ _ _ _ Hs Hh Hp Hnet Hok).
  - now rewrite (invoke_rejected _ _ _ _ _ _ Hs Hh Hp Hnet).
Qed.

(** A value that starts with a character that is not HTTP whitespace keeps
    that character when it is normalised. *)
Lemma strip_trailing_head (c : ascii) (rest : string) :
  is_http_whitespace c = false ->
  strip_trailing (String c rest) = String c (strip_trailing rest).
Proof.
  intros Hc. simpl. destruct (strip_trailing rest); [| reflexivity].
  now rewrite Hc.
Qed.

Lemma normalize_value_head (c : ascii) (rest : string) :
  is_http_whitespace c = false ->
  normalize_value (String c rest) = String c (strip_trailing rest).
Proof.
  intros Hc. unfold normalize_value. simpl strip_leading. rewrite Hc.
  now apply strip_trailing_head.
Qed.

(** Another case of the scheme is another value, padded or not. *)
Lemma recased_scheme_differs (s h : string) :
  In h ["bearer " ++ s; "BEARER " ++ s; " bearer " ++ s; "bearer " ++ s ++ " "] ->
  Some (normalize_value h) <> Some ("Bearer " ++ s).
Proof.
  simpl. intros [<- | [<- | [<- | [<- | []]]]] H.
  - rewrite normalize_value_head in H by reflexivity. discriminate H.
  - rewrite normalize_value_head in H by reflexivity.
    rewrite strip_trailing_head in H by reflexivity. discriminate H.
  - unfold normalize_value in H. simpl strip_leading in H.
    rewrite strip_trailing_head in H by reflexivity. discriminate H.
  - rewrite normalize_value_head in H by reflexivity. discriminate H.
Qed.

(** ** The claims *)

(** C1, as the code has it. With CRON_SECRET configured, a request whose
    Authorization header is absent, or whose value as the handler reads it
    (outer HTTP whitespace removed by the platform) is any string other
    than [Bearer <secret>], is answered 401 with body
    { error: 'Unauthorized' } and no outbound call is issued.  The
    comparison is case-sensitive: another case of the scheme is answered
    401, padded or not.  A value padded with outer whitespace is handled
    as the value without the padding. *)
Theorem unauthorized_unless_header_reads_exact env net s :
  configured (CRON_SECRET env) s ->
  (forall inbound,
     headers_get_authorization inbound <> Some ("Bearer " ++ s) ->
     fst (serve env inbound net) =
       mkNextResponse 401 (JObject [("error", JString "Unauthorized")])
     /\ calls (snd (serve env inbound net)) = [])
  /\ (forall h,
        In h ["bearer " ++ s; "BEARER " ++ s; " bearer " ++ s;
              "bearer " ++ s ++ " "] ->
        fst (serve env (mkInbound (Some h)) net) =
          mkNextResponse 401 (JObject [("error", JString "Unauthorized")])
        /\ calls (snd (serve env (mkInbound (Some h)) net)) = [])
  /\ (forall h,
        normalize_value h = "Bearer " ++ s ->
        serve env (mkInbound (Some h)) net
        = invoke env (mkRequest (Some ("Bearer " ++ s))) net).
Proof.
  intros Hs.
  assert (forall inbound,
            headers_get_authorization inbound <> Some ("Bearer " ++ s) ->
            fst (serve env inbound net) =
              mkNextResponse 401 (JObject [("error", JString "Unauthorized")])
            /\ calls (snd (serve env inbound net)) = []) as Hreject.
  { intros inbound Hne. unfold serve.
    rewrite (invoke_unauthorized env (as_read inbound) net s Hs
               (header_mismatch _ _ Hne)).
    split; reflexivity. }
  split; [exact Hreject |]. split.
  - intros h Hin. apply Hreject.
    unfold headers_get_authorization. simpl sent_authorization.
    now apply recased_scheme_differs.
  - intros h Hh. unfold serve, as_read, headers_get_authorization.
    cbn [sent_authorization]. now rewrite Hh.
Qed.

Lemma unauthorized_unless_header_reads_exact_witness :
  configured (CRON_SECRET (mkEnv (Some "s3cret") (Some "pat"))) "s3cret"
  /\ fst (serve (mkEnv (Some "s3cret") (Some "pat"))
            (mkInbound (Some "bearer s3cret"))
            (fun _ => Resolved (mkResponse 204 (Some "")))) =
     mkNextResponse 401 (JObject [("error", JString "Unauthorized")])
  /\ calls (snd (serve (mkEnv (Some "s3cret") (Some "pat")) (mkInbound None)
                   (fun _ => Resolved (mkResponse 204 (Some ""))))) = [].
Proof.
  assert (configured (CRON_SECRET (mkEnv (Some "s3cret") (Some "pat")))
            "s3cret") as Hs
    by (split; [reflexivity | discriminate]).
  split; [exact Hs |].
  destruct (unauthorized_unless_header_reads_exact
              (mkEnv (Some "s3cret") (Some "pat"))
              (fun _ => Resolved (mkResponse 204 (Some ""))) "s3cret" Hs)
    as [Hany _].
  split.
  - apply (Hany (mkInbound (Some "bearer s3cret"))). discriminate.
  - apply (Hany (mkInbound None)). discriminate.
Defined.

(** C1, as stated, fails: a request sent with the header
    [Bearer s3cret ] (a trailing space) is not sent with exactly
    [Bearer s3cret], yet the handler reads [Bearer s3cret], dispatches and
    answers 200. *)
Lemma padded_header_is_accepted :
  ~ (forall env inbound net s,
       configured (CRON_SECRET env) s ->
       sent_authorization inbound <> Some ("Bearer " ++ s) ->
       fst (serve env inbound net) =
         mkNextResponse 401 (JObject [("error", JString "Unauthorized")])
       /\ calls (snd (serve env inbound net)) = []).
Proof.
  intros H.
  destruct (H (mkEnv (Some "s3cret") (Some "pat"))
              (mkInbound (Some "Bearer s3cret "))
              (fun _ => Resolved (mkResponse 204 (Some "")))
              "s3cret") as [Hresp _].
  - split; [reflexivity | discriminate].
  - discriminate.
  - vm_compute in Hresp. discriminate.
Qed.

(** C2, as the code has it. An invocation issues at most one outbound
    call: exactly one when CRON_SECRET is configured, the header is
    [Bearer <secret>] and GITHUB_PAT is configured, and none on the
    misconfigured and unauthorized paths. *)
Theorem outbound_calls_by_gate env request net :
  (List.length (calls_of env request net) <= 1)%nat
  /\ (List.length (calls_of env request net) = 1%nat <->
      exists s p,
        configured (CRON_SECRET env) s
        /\ authorization request = Some ("Bearer " ++ s)
        /\ configured (GITHUB_PAT env) p)
  /\ (truthy (CRON_SECRET env) = false
      \/ (exists s, configured (CRON_SECRET env) s
                    /\ authorization request <> Some ("Bearer " ++ s))
      \/ truthy (GITHUB_PAT env) = false ->
      calls_of env request net = []).
Proof.
  assert (truthy (CRON_SECRET env) = false
          \/ (exists s, configured (CRON_SECRET env) s
                        /\ authorization request <> Some ("Bearer " ++ s))
          \/ truthy (GITHUB_PAT env) = false ->
          calls_of env request net = []) as Hnone.
  { intros [Hc | [[s [Hs Hne]] | Hp]]; unfold calls_of.
    - now rewrite (invoke_secret_missing env request net Hc).
    - now rewrite (invoke_unauthorized env request net s Hs
                     (header_mismatch _ _ Hne)).
    - destruct (truthy (CRON_SECRET env)) eqn:Hc.
      + destruct (CRON_SECRET env) as [s|] eqn:Es; [| discriminate].
        assert (configured (CRON_SECRET env) s) as Hs.
        { split; [exact Es |]. intros ->. discriminate. }
        destruct (header_matches (authorization request) s) eqn:Hh.
        * now rewrite (invoke_token_missing env request net s Hs Hh Hp).
        * now rewrite (invoke_unauthorized env request net s Hs Hh).
      + now rewrite (invoke_secret_missing env request net Hc). }
  assert ((exists s p,
             configured (CRON_SECRET env) s
             /\ authorization request = Some ("Bearer " ++ s)
             /\ configured (GITHUB_PAT env) p)
          \/ calls_of env request net = []) as Hcases.
  { destruct (CRON_SECRET env) as [s|] eqn:Es;
      [| right; apply Hnone; left; reflexivity ].
    destruct (String.eqb_spec s "") as [-> | Hne];
      [ right; apply Hnone; left; reflexivity |].
    destruct (header_matches (authorization request) s) eqn:Hh.
    - apply header_matches_iff in Hh.
      destruct (GITHUB_PAT env) as [p|] eqn:Ep;
        [| right; apply Hnone; right; right; reflexivity ].
      destruct (String.eqb_spec p "") as [-> | Hnp];
        [ right; apply Hnone; right; right; reflexivity |].
      left. exists s, p. repeat split; assumption.
    - right. apply Hnone. right; left. exists s. split.
      + split; [reflexivity | assumption].
      + intros E. apply header_matches_iff in E. congruence. }
  split; [| split; [split |]].
  - destruct Hcases as [[s [p [Hs [Hh Hp]]]] | H0].
    + rewrite (calls_dispatch env request net s p Hs Hh Hp). simpl. lia.
    + rewrite H0. simpl. lia.
  - intros Hlen. destruct Hcases as [H | H0]; [exact H |].
    rewrite H0 in Hlen. discriminate.
  - intros [s [p [Hs [Hh Hp]]]].
    now rewrite (calls_dispatch env request net s p Hs Hh Hp).
  - exact Hnone.
Qed.

(** C2, as stated, fails: with CRON_SECRET unset the handler answers
    without any outbound call. *)
Lemma not_every_invocation_calls_out :
  ~ (forall env request net,
       List.length (calls_of env request net) = 1%nat).
Proof.
  intros H.
  specialize (H (mkEnv None (Some "pat")) (mkRequest (Some "Bearer x"))
                (fun _ => Resolved (mkResponse 204 (Some "")))).
  vm_compute in H. discriminate.
Qed.

(** C3. With CRON_SECRET unset or empty the handler answers 500 with the
    message 'Cron not configured', whatever the Authorization header is,
    and issues no outbound call. *)
Theorem cron_secret_missing_500 env request net :
  CRON_SECRET env = None \/ CRON_SECRET env = Some "" ->
  response_of env request net =
    mkNextResponse 500 (JObject [("error", JString "Cron not configured")])
  /\ calls_of env request net = [].
Proof.
  intros H. apply truthy_false_cases in H.
  unfold response_of, calls_of.
  rewrite (invoke_secret_missing env request net H). split; reflexivity.
Qed.

Lemma cron_secret_missing_500_witness :
  (CRON_SECRET (mkEnv (Some "") (Some "pat")) = None
   \/ CRON_SECRET (mkEnv (Some "") (Some "pat")) = Some "")
  /\ response_of (mkEnv (Some "") (Some "pat")) (mkRequest (Some "Bearer "))
       (fun _ => Resolved (mkResponse 204 (Some ""))) =
     mkNextResponse 500 (JObject [("error", JString "Cron not configured")])
  /\ calls_of (mkEnv (Some "") (Some "pat")) (mkRequest (Some "Bearer "))
       (fun _ => Resolved (mkResponse 204 (Some ""))) = [].
Proof.
  split; [right; reflexivity |].
  apply (cron_secret_missing_500 (mkEnv (Some "") (Some "pat"))
           (mkRequest (Some "Bearer "))
           (fun _ => Resolved (mkResponse 204 (Some "")))).
  right; reflexivity.
Defined.

(** C4. With the header equal to [Bearer <secret>] and GITHUB_PAT unset or
    empty the handler answers 500 with the message
    'GITHUB_PAT not configured', which is not the answer given for a
    missing CRON_SECRET, and issues no outbound call. *)
Theorem github_pat_missing_500 env request net s :
  configured (CRON_SECRET env) s ->
  authorization request = Some ("Bearer " ++ s) ->
  GITHUB_PAT env = None \/ GITHUB_PAT env = Some "" ->
  response_of env request net =
    mkNextResponse 500
      (JObject [("error", JString "GITHUB_PAT not configured")])
  /\ response_of env request net <>
       mkNextResponse 500 (JObject [("error", JString "Cron not configured")])
  /\ calls_of env request net = [].
Proof.
  intros Hs Hh Hp. apply truthy_false_cases in Hp.
  apply header_matches_iff in Hh.
  unfold response_of, calls_of.
  rewrite (invoke_token_missing env request net s Hs Hh Hp).
  repeat split. discriminate.
Qed.

Lemma github_pat_missing_500_witness :
  response_of (mkEnv (Some "s3cret") None) (mkRequest (Some "Bearer s3cret"))
    (fun _ => Resolved (mkResponse 204 (Some ""))) =
  mkNextResponse 500 (JObject [("error", JString "GITHUB_PAT not configured")])
  /\ calls_of (mkEnv (Some "s3cret") None)
       (mkRequest (Some "Bearer s3cret"))
       (fun _ => Resolved (mkResponse 204 (Some ""))) = [].
Proof.
  destruct (github_pat_missing_500 (mkEnv (Some "s3cret") None)
              (mkRequest (Some "Bearer s3cret"))
              (fun _ => Resolved (mkResponse 204 (Some ""))) "s3cret")
    as [H1 [_ H2]].
  - split; [reflexivity | discriminate].
  - reflexivity.
  - left; reflexivity.
  - split; [exact H1 | exact H2].
Defined.

(** C5. Once the secret, the header and the token pass, the calls issued
    are the single POST to the workflow-dispatch URL of lingdojo/kana-dojo,
    workflow hourly-community-issue.yml, with the token as bearer
    authorization, X-GitHub-Api-Version 2022-11-28, the JSON text of
    { ref: 'main' } as body and a timeout signal of 8000 ms. *)
Theorem dispatch_call_shape env request net s p :
  configured (CRON_SECRET env) s ->
  authorization request = Some ("Bearer " ++ s) ->
  configured (GITHUB_PAT env) p ->
  calls_of env request net =
    [ mkCall
        "https://api.github.com/repos/lingdojo/kana-dojo/actions/workflows/hourly-community-issue.yml/dispatches"
        (mkInit "POST"
           [ ("Authorization", "Bearer " ++ p);
             ("Accept", "application/vnd.github+json");
             ("X-GitHub-Api-Version", "2022-11-28");
             ("Content-Type", "application/json") ]
           ("{" ++ String dquote "ref" ++ String dquote ":"
            ++ String dquote "main" ++ String dquote "}")
           8000) ].
Proof.
  intros Hs Hh Hp.
  rewrite (calls_dispatch env request net s p Hs Hh Hp). reflexivity.
Qed.

Lemma dispatch_call_shape_witness :
  map (fun c => (url c, signal_timeout (init c), body (init c)))
    (calls_of (mkEnv (Some "s3cret") (Some "pat"))
       (mkRequest (Some "Bearer s3cret"))
       (fun _ => Rejected (ThrownError "fetch failed"))) =
  [ ("https://api.github.com/repos/lingdojo/kana-dojo/actions/workflows/hourly-community-issue.yml/dispatches",
     8000%Z,
     "{" ++ String dquote "ref" ++ String dquote ":"
     ++ String dquote "main" ++ String dquote "}") ].
Proof.
  rewrite (dispatch_call_shape (mkEnv (Some "s3cret") (Some "pat"))
             (mkRequest (Some "Bearer s3cret"))
             (fun _ => Rejected (ThrownError "fetch failed"))
             "s3cret" "pat").
  - reflexivity.
  - split; [reflexivity | discriminate].
  - reflexivity.
  - split; [reflexivity | discriminate].
Defined.

(** C6. When the outbound call throws, the handler answers 504 with body
    { error: 'GitHub dispatch request failed', detail }, where detail is
    the message of the thrown Error (and String(value) for a thrown value
    that is not an Error). *)
Theorem fetch_throws_504 env request net s p error :
  configured (CRON_SECRET env) s ->
  authorization request = Some ("Bearer " ++ s) ->
  configured (GITHUB_PAT env) p ->
  net (mkCall dispatch_url (dispatch_init p)) = Rejected error ->
  response_of env request net =
    mkNextResponse 504
      (JObject [("error", JString "GitHub dispatch request failed");
                ("detail",
                 JString match error with
                         | ThrownError message => message
                         | ThrownOther as_string => as_string
                         end)]).
Proof.
  intros Hs Hh Hp Hnet. unfold response_of.
  rewrite (invoke_rejected env request net s p error Hs Hh Hp Hnet).
  destruct error; reflexivity.
Qed.

Lemma fetch_throws_504_witness :
  response_of (mkEnv (Some "s3cret") (Some "pat"))
    (mkRequest (Some "Bearer s3cret"))
    (fun _ => Rejected
                (ThrownError "The operation was aborted due to timeout")) =
  mkNextResponse 504
    (JObject [("error", JString "GitHub dispatch request failed");
              ("detail",
               JString "The operation was aborted due to timeout")]).
Proof.
  apply (fetch_throws_504 (mkEnv (Some "s3cret") (Some "pat"))
           (mkRequest (Some "Bearer s3cret"))
           (fun _ => Rejected
                       (ThrownError "The operation was aborted due to timeout"))
           "s3cret" "pat"
           (ThrownError "The operation was aborted due to timeout")).
  - split; [reflexivity | discriminate].
  - reflexivity.
  - split; [reflexivity | discriminate].
  - reflexivity.
Defined.

(** C7. When the outbound call completes with a status outside 200-299,
    the handler answers 502 with body { error: 'GitHub API error',
    githubStatus, githubBody }: the upstream status and the upstream body
    as read, the empty string when reading it fails. *)
Theorem upstream_error_502 env request net s p response :
  configured (CRON_SECRET env) s ->
  authorization request = Some ("Bearer " ++ s) ->
  configured (GITHUB_PAT env) p ->
  net (mkCall dispatch_url (dispatch_init p)) = Resolved response ->
  (status response < 200 \/ 299 < status response)%Z ->
  response_of env request net =
    mkNextResponse 502
      (JObject [("error", JString "GitHub API error");
                ("githubStatus", JNumber (status response));
                ("githubBody",
                 JString match text response with
                         | Some raw => raw
                         | None => ""
                         end)]).
Proof.
  intros Hs Hh Hp Hnet Hst. unfold response_of.
  assert (ok response = false) as Hok.
  { unfold ok. apply andb_false_iff.
    destruct Hst; [left | right]; apply Z.leb_gt; assumption. }
  rewrite (invoke_upstream_error env request net s p response
             Hs Hh Hp Hnet Hok).
  reflexivity.
Qed.

Lemma upstream_error_502_witness :
  response_of (mkEnv (Some "s3cret") (Some "pat"))
    (mkRequest (Some "Bearer s3cret"))
    (fun _ => Resolved (mkResponse 404 (Some "Not Found"))) =
  mkNextResponse 502
    (JObject [("error", JString "GitHub API error");
              ("githubStatus", JNumber 404);
              ("githubBody", JString "Not Found")])
  /\ response_of (mkEnv (Some "s3cret") (Some "pat"))
       (mkRequest (Some "Bearer s3cret"))
       (fun _ => Resolved (mkResponse 500 None)) =
     mkNextResponse 502
       (JObject [("error", JString "GitHub API error");
                 ("githubStatus", JNumber 500);
                 ("githubBody", JString "")]).
Proof.
  split.
  - apply (upstream_error_502 (mkEnv (Some "s3cret") (Some "pat"))
             (mkRequest (Some "Bearer s3cret"))
             (fun _ => Resolved (mkResponse 404 (Some "Not Found")))
             "s3cret" "pat" (mkResponse 404 (Some "Not Found"))).
    + split; [reflexivity | discriminate].
    + reflexivity.
    + split; [reflexivity | discriminate].
    + reflexivity.
    + right. simpl. lia.
  - apply (upstream_error_502 (mkEnv (Some "s3cret") (Some "pat"))
             (mkRequest (Some "Bearer s3cret"))
             (fun _ => Resolved (mkResponse 500 None))
             "s3cret" "pat" (mkResponse 500 None)).
    + split; [reflexivity | discriminate].
    + reflexivity.
    + split; [reflexivity | discriminate].
    + reflexivity.
    + right. simpl. lia.
Defined.

(** C8. When the outbound call completes with a status in 200-299 (200
    and 204 among them), the handler answers 200 with body { ok: true }. *)
Theorem upstream_success_200 env request net s p response :
  configured (CRON_SECRET env) s ->
  authorization request = Some ("Bearer " ++ s) ->
  configured (GITHUB_PAT env) p ->
  net (mkCall dispatch_url (dispatch_init p)) = Resolved response ->
  (200 <= status response <= 299)%Z ->
  response_of env request net =
    mkNextResponse 200 (JObject [("ok", JBool true)]).
Proof.
  intros Hs Hh Hp Hnet Hst. unfold response_of.
  assert (ok response = true) as Hok.
  { unfold ok. apply andb_true_iff. split; apply Z.leb_le; lia. }
  rewrite (invoke_success env request net s p response Hs Hh Hp Hnet Hok).
  reflexivity.
Qed.

Lemma upstream_success_200_witness :
  response_of (mkEnv (Some "s3cret") (Some "pat"))
    (mkRequest (Some "Bearer s3cret"))
    (fun _ => Resolved (mkResponse 204 (Some ""))) =
  mkNextResponse 200 (JObject [("ok", JBool true)])
  /\ response_of (mkEnv (Some "s3cret") (Some "pat"))
       (mkRequest (Some "Bearer s3cret"))
       (fun _ => Resolved (mkResponse 200 None)) =
     mkNextResponse 200 (JObject [("ok", JBool true)]).
Proof.
  split.
  - apply (upstream_success_200 (mkEnv (Some "s3cret") (Some "pat"))
             (mkRequest (Some "Bearer s3cret"))
             (fun _ => Resolved (mkResponse 204 (Some "")))
             "s3cret" "pat" (mkResponse 204 (Some ""))).
    + split; [reflexivity | discriminate].
    + reflexivity.
    + split; [reflexivity | discriminate].
    + reflexivity.
    + simpl. lia.
  - apply (upstream_success_200 (mkEnv (Some "s3cret") (Some "pat"))
             (mkRequest (Some "Bearer s3cret"))
             (fun _ => Resolved (mkResponse 200 None))
             "s3cret" "pat" (mkResponse 200 None)).
    + split; [reflexivity | discriminate].
    + reflexivity.
    + split; [reflexivity | discriminate].
    + reflexivity.
    + simpl. lia.
Defined.

End DispatchFacts.

(* ================================================================== *)
(** * Properties of the session statistics *)
(* ================================================================== *)

Module SummaryFacts.
Import Summary.

Local Open Scope float_scope.

(** ** Rounding to binary64 never turns a non-negative mantissa into NaN *)

Lemma shr_1_nonneg mrs : (0 <= shr_m mrs)%Z -> (0 <= shr_m (shr_1 mrs))%Z.
Proof.
  destruct mrs as [m r s]. simpl.
  destruct m as [| p | p]; [| destruct p |]; simpl; lia.
Qed.

Lemma iter_pos_invariant {A : Type} (P : A -> Prop) (f : A -> A) :
  (forall a, P a -> P (f a)) -> forall n a, P a -> P (iter_pos f n a).
Proof.
  intros Hf. induction n as [n IH | n IH |]; intros a Ha; simpl; auto.
Qed.

Lemma shr_fexp_nonneg p e m ex l :
  (0 <= m)%Z -> (0 <= shr_m (fst (shr_fexp p e m ex l)))%Z.
Proof.
  intros Hm. unfold shr_fexp, shr.
  assert (0 <= shr_m (shr_record_of_loc m l))%Z as H0.
  { destruct l as [| []]; exact Hm. }
  destruct (fexp p e (Zdigits2 m + ex) - ex)%Z; simpl; try exact H0.
  apply (iter_pos_invariant (fun r => (0 <= shr_m r)%Z)); [| exact H0].
  exact shr_1_nonneg.
Qed.

Lemma round_nearest_even_nonneg m l :
  (0 <= m)%Z -> (0 <= round_nearest_even m l)%Z.
Proof.
  intros Hm. unfold round_nearest_even.
  destruct l as [| []]; try destruct (Z.even m); lia.
Qed.

Lemma binary_round_aux_signed p e s m ex l :
  (0 <= m)%Z -> sign_is s (binary_round_aux p e s m ex l).
Proof.
  intros Hm. unfold binary_round_aux.
  pose proof (shr_fexp_nonneg p e m ex l Hm) as H1.
  destruct (shr_fexp p e m ex l) as [mrs' e']. simpl in H1.
  pose proof (shr_fexp_nonneg p e _ e' loc_Exact
                (round_nearest_even_nonneg _ (loc_of_shr_record mrs') H1))
    as H2.
  destruct (shr_fexp p e _ e' loc_Exact) as [mrs'' e'']. simpl in H2.
  destruct (shr_m mrs'') as [| q | q]; simpl.
  - reflexivity.
  - destruct (e'' <=? e - p)%Z; reflexivity.
  - lia.
Qed.

Lemma binary_round_signed p e s m ex : sign_is s (binary_round p e s m ex).
Proof.
  unfold binary_round. destruct (shl_align _ _ _) as [mz ez].
  apply binary_round_aux_signed. lia.
Qed.

Lemma sign_is_not_nan s x : sign_is s x -> not_nan x.
Proof. destruct x; simpl; intros H E; try discriminate; exact H. Qed.

Lemma sign_false_nonneg x : sign_is false x -> nonneg_sf x.
Proof. destruct x; simpl; auto. Qed.

(** ** Reading the primitive tests on the specification side *)

Lemma Prim2SF_zero : Prim2SF 0 = S754_zero false.
Proof. reflexivity. Qed.

Lemma Prim2SF_hundred : exists m e, Prim2SF 100 = S754_finite false m e.
Proof. eexists. eexists. reflexivity. Qed.

Lemma is_nan_false (x : number) : is_nan x = false <-> not_nan (Prim2SF x).
Proof.
  unfold is_nan, not_nan. rewrite FloatAxioms.eqb_spec. unfold SFeqb.
  destruct (Prim2SF x) as [s | s | | s m e]; simpl.
  - split; [discriminate | reflexivity].
  - destruct s; (split; [discriminate | reflexivity]).
  - split; [discriminate | congruence].
  - rewrite Z.compare_refl, Pos.compare_cont_refl.
    destruct s; (split; [discriminate | reflexivity]).
Qed.

Lemma non_negative_sf (x : number) :
  non_negative x <-> nonneg_sf (Prim2SF x).
Proof.
  unfold non_negative. rewrite FloatAxioms.leb_spec, Prim2SF_zero.
  unfold SFleb.
  destruct (Prim2SF x) as [s | s | | s m e]; simpl.
  - tauto.
  - destruct s; split; congruence.
  - split; [discriminate | tauto].
  - destruct s; split; congruence.
Qed.

Lemma is_finite_sf (x : number) :
  is_finite x = true -> finite_sf (Prim2SF x).
Proof.
  unfold is_finite, is_nan, is_infinity.
  rewrite !FloatAxioms.eqb_spec, FloatAxioms.abs_spec.
  change (Prim2SF infinity) with (S754_infinity false).
  destruct (Prim2SF x) as [s | s | | s m e]; simpl; try tauto.
  - rewrite orb_true_r. discriminate.
  - discriminate.
Qed.

Lemma positive_is_positive_sf (t : number) :
  (0 <? t) = true -> positive_sf (Prim2SF t).
Proof.
  rewrite FloatAxioms.ltb_spec, Prim2SF_zero. unfold SFltb.
  destruct (Prim2SF t) as [s | s | | s m e]; simpl; try discriminate;
    destruct s; try discriminate; trivial.
Qed.

Lemma positive_or_zero (t : number) :
  nonneg_sf (Prim2SF t) -> (0 <? t) = true \/ (t =? 0) = true.
Proof.
  rewrite FloatAxioms.ltb_spec, FloatAxioms.eqb_spec, Prim2SF_zero.
  unfold SFltb, SFeqb.
  destruct (Prim2SF t) as [s | s | | s m e]; simpl; try tauto.
  - intros ->. now left.
  - intros ->. now left.
Qed.

Lemma zero_is_not_positive (t : number) :
  (t =? 0) = true -> (0 <? t) = false.
Proof.
  rewrite FloatAxioms.ltb_spec, FloatAxioms.eqb_spec, Prim2SF_zero.
  unfold SFltb, SFeqb.
  destruct (Prim2SF t) as [s | s | | s m e]; simpl;
    try discriminate; try (destruct s; discriminate).
  reflexivity.
Qed.

(** ** The three operations of the accuracy *)

Lemma SFadd_nonneg x y :
  nonneg_sf x -> nonneg_sf y -> nonneg_sf (SFadd prec emax x y).
Proof.
  destruct x as [sx | sx | | sx mx ex], y as [sy | sy | | sy my ey];
    simpl; try tauto; intros Hx Hy; subst; simpl; auto.
  - destruct sx, sy; exact I.
  - apply sign_false_nonneg.
    change (sign_is false
              (binary_normalize prec emax
                 (Z.pos (fst (shl_align mx ex (Z.min ex ey)))
                  + Z.pos (fst (shl_align my ey (Z.min ex ey))))
                 (Z.min ex ey) false)).
    simpl Z.add. apply binary_round_signed.
Qed.

Lemma SFdiv_core_nonneg mx ex my ey :
  (0 <= fst (fst (SFdiv_core_binary prec emax (Z.pos mx) ex (Z.pos my) ey)))%Z.
Proof.
  unfold SFdiv_core_binary.
  set (s := (ex - ey - _)%Z).
  set (m' := match s with
             | Z.pos _ => Z.shiftl (Z.pos mx) s
             | 0%Z => Z.pos mx
             | Z.neg _ => 0%Z
             end).
  assert (0 <= m')%Z as Hm'.
  { subst m'. destruct s; try lia. apply Z.shiftl_nonneg. lia. }
  pose proof (Z.div_pos m' (Z.pos my) Hm' ltac:(lia)) as Hq.
  unfold Z.div in Hq.
  destruct (Z.div_eucl m' (Z.pos my)) as [q r]. exact Hq.
Qed.

Lemma SFdiv_not_nan x y :
  finite_sf x -> positive_sf y -> not_nan (SFdiv prec emax x y).
Proof.
  unfold not_nan.
  destruct x as [sx | sx | | sx mx ex], y as [sy | sy | | sy my ey];
    simpl; try tauto; intros _ Hy; try (destruct sy; try tauto);
    try discriminate.
  pose proof (SFdiv_core_nonneg mx ex my ey) as Hq.
  destruct (SFdiv_core_binary prec emax (Z.pos mx) ex (Z.pos my) ey)
    as [[mz ez] lz].
  simpl in Hq.
  exact (sign_is_not_nan _ _ (binary_round_aux_signed _ _ _ _ _ _ Hq)).
Qed.

Lemma SFmul_hundred_not_nan x :
  not_nan x -> not_nan (SFmul prec emax x (Prim2SF 100)).
Proof.
  destruct Prim2SF_hundred as [m [e ->]]. unfold not_nan.
  destruct x as [sx | sx | | sx mx ex]; simpl; intros Hx;
    try discriminate; try contradiction.
  apply (sign_is_not_nan (xorb sx false)).
  apply binary_round_aux_signed. lia.
Qed.

Lemma of_uint63_not_nan n : not_nan (Prim2SF (of_uint63 n)).
Proof.
  rewrite FloatAxioms.of_uint63_spec. unfold binary_normalize.
  destruct (Uint63.to_Z n) as [| q | q].
  - discriminate.
  - exact (sign_is_not_nan _ _ (binary_round_signed _ _ _ _ _)).
  - exact (sign_is_not_nan _ _ (binary_round_signed _ _ _ _ _)).
Qed.

Lemma opp_not_nan (x : number) :
  not_nan (Prim2SF x) -> not_nan (Prim2SF (- x)).
Proof.
  rewrite FloatAxioms.opp_spec. unfold not_nan.
  destruct (Prim2SF x); simpl; congruence.
Qed.

Lemma Math_round_not_nan (x : number) :
  not_nan (Prim2SF x) -> not_nan (Prim2SF (Math_round x)).
Proof.
  intros Hx. unfold Math_round.
  destruct (Prim2SF x) as [s | s | | s m e] eqn:E; try (rewrite E; exact Hx).
  destruct (0 <=? e)%Z; [rewrite E; exact Hx |].
  cbv zeta.
  destruct (_ =? 0)%Z.
  - destruct s; discriminate.
  - destruct (_ <? 0)%Z.
    + apply opp_not_nan, of_uint63_not_nan.
    + apply of_uint63_not_nan.
Qed.

(** The accuracy of a finite number of correct answers is a number. *)
Lemma accuracy_not_nan (c w : number) :
  is_finite c = true -> is_nan (accuracy c w) = false.
Proof.
  intros Hc. apply is_nan_false. unfold accuracy, total.
  destruct (0 <? c + w) eqn:Ht.
  - apply Math_round_not_nan. rewrite FloatAxioms.mul_spec.
    apply SFmul_hundred_not_nan. rewrite FloatAxioms.div_spec.
    apply SFdiv_not_nan.
    + now apply is_finite_sf.
    + now apply positive_is_positive_sf.
  - rewrite Prim2SF_zero. discriminate.
Qed.

Lemma total_positive_or_zero (c w : number) :
  non_negative c -> non_negative w ->
  (0 <? total c w) = true \/ (total c w =? 0) = true.
Proof.
  intros Hc Hw. apply positive_or_zero. unfold total.
  rewrite FloatAxioms.add_spec.
  apply SFadd_nonneg; now apply non_negative_sf.
Qed.

(** Finiteness read on the specification side is enough for a number. *)
Lemma accuracy_not_nan_sf (c w : number) :
  finite_sf (Prim2SF c) -> is_nan (accuracy c w) = false.
Proof.
  intros Hc. apply is_nan_false. unfold accuracy, total.
  destruct (0 <? c + w) eqn:Ht.
  - apply Math_round_not_nan. rewrite FloatAxioms.mul_spec.
    apply SFmul_hundred_not_nan. rewrite FloatAxioms.div_spec.
    apply SFdiv_not_nan; [exact Hc | now apply positive_is_positive_sf].
  - rewrite Prim2SF_zero. discriminate.
Qed.

(** A non-negative number is finite or is +Infinity. *)
Lemma non_negative_finite_or_infinity (c : number) :
  non_negative c -> finite_sf (Prim2SF c) \/ c = infinity.
Proof.
  intros Hc. apply non_negative_sf in Hc.
  destruct (Prim2SF c) as [s | s | | s m e] eqn:E; simpl in *;
    try contradiction; try (left; exact I).
  right. subst s. apply Prim2SF_inj. rewrite E. reflexivity.
Qed.

(** Infinity plus a non-negative number is Infinity. *)
Lemma infinity_plus_non_negative (w : number) :
  non_negative w -> infinity + w = infinity.
Proof.
  intros Hw. apply non_negative_sf in Hw. apply Prim2SF_inj.
  rewrite FloatAxioms.add_spec.
  change (Prim2SF infinity) with (S754_infinity false).
  destruct (Prim2SF w) as [s | s | | s m e]; simpl in *;
    try contradiction; subst; reflexivity.
Qed.

(** With an infinite number of correct answers the quotient is
    Infinity / Infinity. *)
Lemma accuracy_of_infinity (w : number) :
  non_negative w -> is_nan (accuracy infinity w) = true.
Proof.
  intros Hw. unfold accuracy, total.
  rewrite (infinity_plus_non_negative w Hw). reflexivity.
Qed.

(** ** Binary64 at work: 29 of 200 is 14.499999999999998 percent *)

Example accuracy_29_of_200 : accuracy 29 171 = 14.
Proof. reflexivity. Qed.

Example accuracy_1_of_8 : accuracy 1 7 = 13.
Proof. reflexivity. Qed.

Example accuracy_nothing_answered : accuracy 0 0 = 0.
Proof. reflexivity. Qed.

(** An infinite count is the one input whose accuracy is NaN. *)
Example accuracy_infinite_count : is_nan (accuracy infinity 0) = true.
Proof. reflexivity. Qed.

(** ** The claim *)

(** C9, as the code has it. For non-negative [correct] and [wrong], the
    Accuracy card shows [Math.round((correct / (correct + wrong)) * 100)]
    when [correct + wrong > 0] and exactly 0 when [correct + wrong = 0],
    one of the two being the case; with a zero total no division is made
    and the value is not NaN, as it is not for any finite [correct]: the
    value is NaN exactly when [correct] is Infinity.  The Attempts card
    shows [correct + wrong]. *)
Theorem accuracy_guarded_and_attempts (p : Props) :
  non_negative (correct p) ->
  non_negative (wrong p) ->
  let sum := correct p + wrong p in
  let shown := accuracy (correct p) (wrong p) in
  stat "Attempts" (stat_cards p) = Some (Plain sum)
  /\ stat "Accuracy" (stat_cards p) = Some (Percent shown)
  /\ ((0 <? sum) = true \/ (sum =? 0) = true)
  /\ ((0 <? sum) = true ->
      shown = Math_round ((correct p / sum) * 100))
  /\ ((sum =? 0) = true -> shown = 0 /\ is_nan shown = false)
  /\ (is_finite (correct p) = true -> is_nan shown = false)
  /\ (is_nan shown = true <-> correct p = infinity).
Proof.
  intros Hc Hw sum shown.
  split; [reflexivity |].
  split; [reflexivity |].
  split; [exact (total_positive_or_zero _ _ Hc Hw) |].
  split.
  { intros Hpos. subst shown. unfold accuracy, total. fold sum.
    now rewrite Hpos. }
  split.
  { intros Hzero. apply zero_is_not_positive in Hzero.
    assert (shown = 0) as H0.
    { subst shown. unfold accuracy, total. fold sum. now rewrite Hzero. }
    split; [exact H0 |]. now rewrite H0. }
  split; [intros Hfin; now apply accuracy_not_nan |].
  subst shown. split.
  - intros Hnan.
    destruct (non_negative_finite_or_infinity _ Hc) as [Hfin | Hinf];
      [| exact Hinf].
    rewrite (accuracy_not_nan_sf _ (wrong p) Hfin) in Hnan. discriminate.
  - intros Hinf. rewrite Hinf. now apply accuracy_of_infinity.
Qed.

(** C9, as stated, fails: [correct = Infinity] and [wrong = 0] are
    non-negative, the total is positive, and the division gives NaN. *)
Lemma accuracy_nan_for_infinite_correct :
  ~ (forall p : Props,
       non_negative (correct p) ->
       non_negative (wrong p) ->
       stat "Attempts" (stat_cards p) = Some (Plain (correct p + wrong p))
       /\ ((0 <? correct p + wrong p) = true ->
           accuracy (correct p) (wrong p)
           = Math_round ((correct p / (correct p + wrong p)) * 100))
       /\ ((correct p + wrong p =? 0) = true ->
           accuracy (correct p) (wrong p) = 0)
       /\ is_nan (accuracy (correct p) (wrong p)) = false).
Proof.
  intros H.
  destruct (H (mkProps infinity 0 0 0)) as [_ [_ [_ Hnan]]].
  - reflexivity.
  - reflexivity.
  - vm_compute in Hnan. discriminate Hnan.
Qed.

Lemma accuracy_guarded_and_attempts_witness :
  stat "Attempts" (stat_cards (mkProps 29 171 12 3)) = Some (Plain 200)
  /\ stat "Accuracy" (stat_cards (mkProps 29 171 12 3)) = Some (Percent 14).
Proof.
  destruct (accuracy_guarded_and_attempts (mkProps 29 171 12 3))
    as [Hattempts [Haccuracy _]].
  - reflexivity.
  - reflexivity.
  - split; [exact Hattempts | exact Haccuracy].
Defined.

End SummaryFacts.

(* ================================================================== *)
(** * Properties of the grouping by category *)
(* ================================================================== *)

Module ConjugationFacts.
Import Conjugation.

Local Open Scope list_scope.

Section GroupingFacts.

Variable Category : Type.
Variable Category_eq_dec : forall a b : Category, {a = b} + {a <> b}.
Variable ConjugationForm : Type.
Variable category : ConjugationForm -> Category.
Variable Verb : Type.
Variable ALL_CONJUGATION_CATEGORIES : list Category.

Abbreviation same := (same_category Category_eq_dec).
Abbreviation get := (Map_get Category_eq_dec).
Abbreviation set := (Map_set Category_eq_dec).
Abbreviation add := (add_form Category_eq_dec category).
Abbreviation in_category := (of_category Category_eq_dec category).
Abbreviation Map := (CategoryMap Category ConjugationForm).

Lemma same_true (a b : Category) : same a b = true <-> a = b.
Proof.
  unfold same_category.
  destruct (Category_eq_dec a b); split; congruence.
Qed.

Lemma same_refl (a : Category) : same a a = true.
Proof. now apply same_true. Qed.

Lemma same_false (a b : Category) : same a b = false <-> a <> b.
Proof.
  unfold same_category.
  destruct (Category_eq_dec a b); split; congruence.
Qed.

(** *** [Map] get and set *)

Lemma get_set_same (m : Map) k v : get (set m k v) k = Some v.
Proof.
  induction m as [| [k' v'] rest IH]; simpl.
  - now rewrite same_refl.
  - destruct (same k' k) eqn:E; simpl; rewrite E; [reflexivity | exact IH].
Qed.

Lemma get_set_other (m : Map) k k' v :
  k' <> k -> get (set m k v) k' = get m k'.
Proof.
  intros Hne. induction m as [| [k0 v0] rest IH]; simpl.
  - assert (same k k' = false) as -> by (apply same_false; congruence).
    reflexivity.
  - destruct (same k0 k) eqn:E; simpl.
    + apply same_true in E. subst k0.
      assert (same k k' = false) as -> by (apply same_false; congruence).
      reflexivity.
    + destruct (same k0 k'); [reflexivity | exact IH].
Qed.

Lemma keys_set (m : Map) k v :
  map fst (set m k v) =
  match get m k with
  | Some _ => map fst m
  | None => map fst m ++ [k]
  end.
Proof.
  induction m as [| [k' v'] rest IH]; simpl.
  - reflexivity.
  - destruct (same k' k) eqn:E; simpl.
    + reflexivity.
    + rewrite IH. now destruct (get rest k).
Qed.

Lemma get_none_not_key (m : Map) k : get m k = None -> ~ In k (map fst m).
Proof.
  induction m as [| [k' v'] rest IH]; simpl.
  - tauto.
  - destruct (same k' k) eqn:E; [discriminate |].
    apply same_false in E. intros Hg [H | H]; [congruence | now apply IH].
Qed.

Lemma get_of_entry (m : Map) k v :
  NoDup (map fst m) -> In (k, v) m -> get m k = Some v.
Proof.
  induction m as [| [k' v'] rest IH]; simpl.
  - tauto.
  - intros Hnd [H | H].
    + injection H as -> ->. now rewrite same_refl.
    + inversion Hnd as [| ? ? Hnotin Hrest]; subst.
      destruct (same k' k) eqn:E.
      * apply same_true in E. subst k'.
        exfalso. apply Hnotin. now apply (in_map fst) in H.
      * now apply IH.
Qed.

(** *** One turn of the loop *)

Lemma bucket_add (m : Map) f c :
  or_empty (get (add m f) c) =
  or_empty (get m c) ++ (if same (category f) c then [f] else []).
Proof.
  unfold add_form. destruct (same (category f) c) eqn:E.
  - apply same_true in E. subst c. now rewrite get_set_same.
  - apply same_false in E. rewrite get_set_other by congruence.
    now rewrite app_nil_r.
Qed.

Lemma keys_add_NoDup (m : Map) f :
  NoDup (map fst m) -> NoDup (map fst (add m f)).
Proof.
  intros Hnd. unfold add_form. rewrite keys_set.
  destruct (get m (category f)) eqn:E; [exact Hnd |].
  apply NoDup_app.
  - exact Hnd.
  - constructor; [simpl; tauto | constructor].
  - intros x Hin [Heq | []]. subst x.
    now apply (get_none_not_key m (category f)).
Qed.

Lemma stored_nonempty_add (m : Map) f :
  (forall c v, get m c = Some v -> v <> []) ->
  forall c v, get (add m f) c = Some v -> v <> [].
Proof.
  intros Hm c v. unfold add_form.
  destruct (Category_eq_dec c (category f)) as [-> | Hne].
  - rewrite get_set_same. intros H. injection H as <-.
    now destruct (or_empty (get m (category f))).
  - rewrite get_set_other by exact Hne. apply Hm.
Qed.

Lemma contents_add (m : Map) f :
  Permutation (List.concat (map snd (add m f))) (List.concat (map snd m) ++ [f]).
Proof.
  unfold add_form. induction m as [| [k v] rest IH]; simpl.
  - reflexivity.
  - destruct (same k (category f)) eqn:E; simpl.
    + rewrite <- !app_assoc. apply Permutation_app_head.
      apply Permutation_app_comm.
    + rewrite <- app_assoc. apply Permutation_app_head. exact IH.
Qed.

(** *** The whole loop *)

Abbreviation group := (group_forms Category_eq_dec category).

Lemma group_snoc fs f : group (fs ++ [f]) = add (group fs) f.
Proof. unfold group_forms. now rewrite fold_left_app. Qed.

Lemma in_category_snoc c fs f :
  in_category c (fs ++ [f]) =
  in_category c fs ++ (if same (category f) c then [f] else []).
Proof.
  unfold of_category. rewrite filter_app. simpl.
  now destruct (same (category f) c).
Qed.

Lemma bucket_group fs c : or_empty (get (group fs) c) = in_category c fs.
Proof.
  induction fs as [| f fs IH] using rev_ind.
  - reflexivity.
  - now rewrite group_snoc, bucket_add, IH, in_category_snoc.
Qed.

Lemma keys_group_NoDup fs : NoDup (map fst (group fs)).
Proof.
  induction fs as [| f fs IH] using rev_ind.
  - constructor.
  - rewrite group_snoc. now apply keys_add_NoDup.
Qed.

Lemma stored_nonempty_group fs c v : get (group fs) c = Some v -> v <> [].
Proof.
  revert c v. induction fs as [| f fs IH] using rev_ind.
  - discriminate.
  - rewrite group_snoc. now apply stored_nonempty_add.
Qed.

Lemma contents_group fs : Permutation (List.concat (map snd (group fs))) fs.
Proof.
  induction fs as [| f fs IH] using rev_ind.
  - reflexivity.
  - rewrite group_snoc, contents_add. now apply Permutation_app_tail.
Qed.

Lemma in_category_In c fs f :
  In f (in_category c fs) <-> In f fs /\ category f = c.
Proof.
  unfold of_category. rewrite filter_In. now rewrite same_true.
Qed.

Lemma formsByCategory_group (result : option (ConjugationResult ConjugationForm Verb)) :
  formsByCategory Category_eq_dec category result = group (forms_of result).
Proof. now destruct result. Qed.

Lemma has_forms_iff (m : Map) c :
  Nat.ltb 0 (bucket_length Category_eq_dec m c) =
  match or_empty (get m c) with [] => false | _ :: _ => true end.
Proof.
  unfold bucket_length, or_empty.
  destruct (get m c) as [[| f l] |]; reflexivity.
Qed.

Lemma filter_nonempty_existsb {A : Type} (p : A -> bool) (l : list A) :
  match filter p l with [] => false | _ :: _ => true end = existsb p l.
Proof.
  induction l as [| a l IH]; simpl.
  - reflexivity.
  - destruct (p a); [reflexivity | exact IH].
Qed.

Lemma filter_none {A : Type} (l : list A) : filter (fun _ => false) l = [].
Proof. induction l as [| a l IH]; [reflexivity | exact IH]. Qed.

(** ** The claim *)

(** C10. The grouping of the forms of a result is a partition of them by
    category: the map holds one bucket per category, no bucket is empty,
    the buckets together hold every form of the result once, the bucket of
    a category is the sub-list of the forms of that category in the order
    of [result.forms], and a form is in the bucket of its own category
    only.  The categories rendered are the members of
    [ALL_CONJUGATION_CATEGORIES], in the order of that table, whose bucket
    is not empty, each with its bucket.  For a null result the grouping is
    the empty map and nothing is rendered. *)
Theorem grouping_partitions_forms
  (result : option (ConjugationResult ConjugationForm Verb)) :
  let grouped := formsByCategory Category_eq_dec category result in
  let fs := forms_of result in
  NoDup (map fst grouped)
  /\ Permutation (List.concat (map snd grouped)) fs
  /\ (forall c bucket,
        In (c, bucket) grouped ->
        bucket <> []
        /\ bucket = filter (fun f => same (category f) c) fs)
  /\ (forall c,
        or_empty (get grouped c) = filter (fun f => same (category f) c) fs)
  /\ (forall f c,
        In f (or_empty (get grouped c)) <-> In f fs /\ category f = c)
  /\ categoriesWithForms Category_eq_dec ALL_CONJUGATION_CATEGORIES grouped =
       filter
         (fun c => match or_empty (get grouped c) with
                   | [] => false
                   | _ :: _ => true
                   end)
         ALL_CONJUGATION_CATEGORIES
  /\ rendered Category_eq_dec category ALL_CONJUGATION_CATEGORIES result =
       map (fun c => (c, filter (fun f => same (category f) c) fs))
         (filter (fun c => existsb (fun f => same (category f) c) fs)
            ALL_CONJUGATION_CATEGORIES)
  /\ (result = None ->
      grouped = []
      /\ rendered Category_eq_dec category ALL_CONJUGATION_CATEGORIES result
         = []).
Proof.
  intros grouped fs.
  assert (grouped = group fs) as Hg by apply formsByCategory_group.
  assert (forall c, or_empty (get grouped c) = in_category c fs) as Hbucket
    by (intros c; rewrite Hg; apply bucket_group).
  assert (categoriesWithForms Category_eq_dec ALL_CONJUGATION_CATEGORIES
            grouped =
          filter (fun c => existsb (fun f => same (category f) c) fs)
            ALL_CONJUGATION_CATEGORIES) as Hcats.
  { unfold categoriesWithForms. apply filter_ext. intros c.
    rewrite has_forms_iff, Hbucket. apply filter_nonempty_existsb. }
  assert (rendered Category_eq_dec category ALL_CONJUGATION_CATEGORIES result
          = map (fun c => (c, filter (fun f => same (category f) c) fs))
              (filter (fun c => existsb (fun f => same (category f) c) fs)
                 ALL_CONJUGATION_CATEGORIES)) as Hrendered.
  { unfold rendered. fold grouped. rewrite Hcats. apply map_ext.
    intros c. now rewrite Hbucket. }
  split; [rewrite Hg; apply keys_group_NoDup |].
  split; [rewrite Hg; apply contents_group |].
  split.
  { intros c bucket Hin.
    assert (get grouped c = Some bucket) as Hget.
    { apply get_of_entry; [rewrite Hg; apply keys_group_NoDup | exact Hin]. }
    split.
    - rewrite Hg in Hget. exact (stored_nonempty_group _ _ _ Hget).
    - specialize (Hbucket c). rewrite Hget in Hbucket. exact Hbucket. }
  split; [exact Hbucket |].
  split; [intros f c; rewrite Hbucket; apply in_category_In |].
  split.
  { unfold categoriesWithForms. apply filter_ext. intros c.
    apply has_forms_iff. }
  split; [exact Hrendered |].
  intros ->. split; [reflexivity |].
  rewrite Hrendered. simpl. now rewrite filter_none.
Qed.

End GroupingFacts.

End ConjugationFacts.

(* ================================================================== *)
(** * More on the dispatch endpoint: outcomes, logging, what leaks *)
(* ================================================================== *)

Module DispatchOutcomes.
Import Js Dispatch DispatchFacts.

(** Every invocation takes one of the six paths of the handler. *)
Lemma invoke_paths env request net :
  (truthy (CRON_SECRET env) = false
   /\ invoke env request net =
      (mkNextResponse 500 (JObject [("error", JString "Cron not configured")]),
       fresh net))
  \/ (exists s,
        configured (CRON_SECRET env) s
        /\ authorization request <> Some ("Bearer " ++ s)
        /\ invoke env request net =
           (mkNextResponse 401 (JObject [("error", JString "Unauthorized")]),
            fresh net))
  \/ (exists s,
        configured (CRON_SECRET env) s
        /\ authorization request = Some ("Bearer " ++ s)
        /\ truthy (GITHUB_PAT env) = false
        /\ invoke env request net =
           (mkNextResponse 500
              (JObject [("error", JString "GITHUB_PAT not configured")]),
            fresh net))
  \/ (exists s p,
        configured (CRON_SECRET env) s
        /\ authorization request = Some ("Bearer " ++ s)
        /\ configured (GITHUB_PAT env) p
        /\ ((exists error,
               net (mkCall dispatch_url (dispatch_init p)) = Rejected error
               /\ invoke env request net =
                  (mkNextResponse 504
                     (JObject
                        [("error", JString "GitHub dispatch request failed");
                         ("detail", JString (detail_of error))]),
                   mkWorld net [mkCall dispatch_url (dispatch_init p)]
                     ["[trigger-community-issue] GitHub dispatch request failed: "
                      ++ detail_of error]))
            \/ (exists response,
                  net (mkCall dispatch_url (dispatch_init p))
                  = Resolved response
                  /\ ok response = false
                  /\ invoke env request net =
                     (mkNextResponse 502
                        (JObject
                           [("error", JString "GitHub API error");
                            ("githubStatus", JNumber (status response));
                            ("githubBody",
                             JString (text_or_empty response))]),
                      mkWorld net [mkCall dispatch_url (dispatch_init p)]
                        ["[trigger-community-issue] GitHub API error "
                         ++ string_of_Z (status response) ++ ": "
                         ++ text_or_empty response]))
            \/ (exists response,
                  net (mkCall dispatch_url (dispatch_init p))
                  = Resolved response
                  /\ ok response = true
                  /\ invoke env request net =
                     (mkNextResponse 200 (JObject [("ok", JBool true)]),
                      mkWorld net [mkCall dispatch_url (dispatch_init p)]
                        [])))).
Proof.
  destruct (truthy (CRON_SECRET env)) eqn:Hc.
  2:{ left. split; [reflexivity |]. now apply invoke_secret_missing. }
  right.
  destruct (CRON_SECRET env) as [s|] eqn:Es; [| discriminate].
  assert (configured (CRON_SECRET env) s) as Hs.
  { split; [exact Es |]. intros ->. discriminate. }
  rewrite <- Es.
  destruct (header_matches (authorization request) s) eqn:Hh.
  2:{ left. exists s. split; [exact Hs |]. split.
      - intros E. apply header_matches_iff in E. congruence.
      - now apply invoke_unauthorized with (s := s). }
  right. pose proof Hh as Hh'. apply header_matches_iff in Hh'.
  destruct (truthy (GITHUB_PAT env)) eqn:Hp.
  2:{ left. exists s. split; [exact Hs |]. split; [exact Hh' |].
      split; [reflexivity |].
      now apply invoke_token_missing with (s := s). }
  right.
  destruct (GITHUB_PAT env) as [p|] eqn:Ep; [| discriminate].
  assert (configured (GITHUB_PAT env) p) as Hpc.
  { split; [exact Ep |]. intros ->. discriminate. }
  rewrite <- Ep.
  exists s, p. split; [exact Hs |]. split; [exact Hh' |].
  split; [exact Hpc |].
  destruct (net (mkCall dispatch_url (dispatch_init p))) as [r | e] eqn:Hnet.
  - destruct (ok r) eqn:Hok.
    + right; right. exists r. split; [reflexivity |].
      split; [exact Hok |].
      exact (invoke_success env request net s p r Hs Hh' Hpc Hnet Hok).
    + right; left. exists r. split; [reflexivity |].
      split; [exact Hok |].
      exact (invoke_upstream_error env request net s p r Hs Hh' Hpc Hnet Hok).
  - left. exists e. split; [reflexivity |].
    exact (invoke_rejected env request net s p e Hs Hh' Hpc Hnet).
Qed.

Lemma ok_iff (r : Response) :
  ok r = true <-> (200 <= status r <= 299)%Z.
Proof.
  unfold ok. rewrite andb_true_iff, !Z.leb_le. tauto.
Qed.

Lemma configured_unique (v : option string) (s s' : string) :
  configured v s -> configured v s' -> s = s'.
Proof. intros [H _] [H' _]. congruence. Qed.

Ltac on_paths env request net :=
  destruct (invoke_paths env request net)
    as [[Hc Hi]
       | [[s [Hs [Hh Hi]]]
         | [[s [Hs [Hh [Hp Hi]]]]
           | [s [p [Hs [Hh [Hp
               [[e [Hnet Hi]]
               | [[r [Hnet [Hok Hi]]] | [r [Hnet [Hok Hi]]]]]]]]]]]]].

(** X1. The status of the answer is always one of 200, 401, 500, 502 and
    504. *)
Theorem status_is_one_of_five env request net :
  In (res_status (response_of env request net)) [200; 401; 500; 502; 504]%Z.
Proof.
  unfold response_of.
  on_paths env request net; rewrite Hi; simpl; auto 6.
Qed.

(** X2. The handler answers 200 exactly when CRON_SECRET is configured,
    the header is [Bearer <secret>], GITHUB_PAT is configured and the
    upstream answered the dispatch call with a status in 200-299: it never
    reports success for a dispatch the upstream did not accept. *)
Theorem success_iff_upstream_accepted env request net :
  res_status (response_of env request net) = 200%Z <->
  exists s p response,
    configured (CRON_SECRET env) s
    /\ authorization request = Some ("Bearer " ++ s)
    /\ configured (GITHUB_PAT env) p
    /\ net (mkCall dispatch_url (dispatch_init p)) = Resolved response
    /\ (200 <= status response <= 299)%Z.
Proof.
  unfold response_of. split.
  - on_paths env request net; rewrite Hi; simpl; try discriminate.
    intros _. exists s, p, r. apply ok_iff in Hok. tauto.
  - intros [s [p [r [Hs [Hh [Hp [Hnet Hst]]]]]]].
    apply ok_iff in Hst.
    now rewrite (invoke_success env request net s p r Hs Hh Hp Hnet Hst).
Qed.

(** X3. [console.error] is called at most once, and exactly on the two
    paths that follow a failed dispatch (502 and 504): nothing is logged
    for a 200, a 401 or a 500, and a line is logged only after the
    outbound call was issued. *)
Theorem logs_only_after_failed_dispatch env request net :
  (List.length (console (snd (invoke env request net))) <= 1)%nat
  /\ (console (snd (invoke env request net)) = [] <->
      In (res_status (response_of env request net)) [200; 401; 500]%Z)
  /\ (List.length (console (snd (invoke env request net))) = 1%nat <->
      In (res_status (response_of env request net)) [502; 504]%Z)
  /\ (console (snd (invoke env request net)) <> [] ->
      List.length (calls_of env request net) = 1%nat).
Proof.
  unfold response_of, calls_of.
  on_paths env request net; rewrite Hi; simpl;
    repeat split; intros; simpl in *;
    intuition (try lia; try discriminate; try congruence).
Qed.

(** X4. A request that does not carry the configured secret gets an
    answer that depends neither on GITHUB_PAT nor on the upstream: the
    caller cannot tell from it whether the token is configured or what the
    upstream would answer. *)
Theorem unauthorized_answer_independent
  (cs : option string) request (p1 p2 : option string) net1 net2 :
  (forall s, cs = Some s -> authorization request <> Some ("Bearer " ++ s)) ->
  response_of (mkEnv cs p1) request net1
  = response_of (mkEnv cs p2) request net2
  /\ calls_of (mkEnv cs p1) request net1 = []
  /\ calls_of (mkEnv cs p2) request net2 = [].
Proof.
  intros Hne. unfold response_of, calls_of.
  destruct (truthy cs) eqn:Hc.
  - destruct cs as [s|]; [| discriminate].
    assert (s <> "") as Hs by (intros ->; discriminate).
    pose proof (header_mismatch _ _ (Hne s eq_refl)) as Hh.
    rewrite (invoke_unauthorized (mkEnv (Some s) p1) request net1 s
               (conj eq_refl Hs) Hh).
    rewrite (invoke_unauthorized (mkEnv (Some s) p2) request net2 s
               (conj eq_refl Hs) Hh).
    repeat split.
  - rewrite (invoke_secret_missing (mkEnv cs p1) request net1 Hc).
    rewrite (invoke_secret_missing (mkEnv cs p2) request net2 Hc).
    repeat split.
Qed.

Lemma unauthorized_answer_independent_witness :
  response_of (mkEnv (Some "s3cret") None) (mkRequest (Some "Bearer guess"))
    (fun _ => Rejected (ThrownError "fetch failed"))
  = response_of (mkEnv (Some "s3cret") (Some "pat"))
      (mkRequest (Some "Bearer guess"))
      (fun _ => Resolved (mkResponse 204 (Some ""))).
Proof.
  apply (unauthorized_answer_independent (Some "s3cret")
           (mkRequest (Some "Bearer guess")) None (Some "pat")
           (fun _ => Rejected (ThrownError "fetch failed"))
           (fun _ => Resolved (mkResponse 204 (Some "")))).
  intros s E. injection E as <-. discriminate.
Defined.

End DispatchOutcomes.

(* ================================================================== *)
(** * More on the session statistics: the ends of the scale *)
(* ================================================================== *)

Module SummaryScale.
Import Summary SummaryFacts.

Local Open Scope float_scope.

Lemma Prim2SF_positive_finite (c : number) :
  is_finite c = true -> (0 <? c) = true ->
  exists m e, Prim2SF c = S754_finite false m e.
Proof.
  intros Hfin Hpos.
  apply is_finite_sf in Hfin. apply positive_is_positive_sf in Hpos.
  destruct (Prim2SF c) as [s | s | | s m e]; simpl in *; try contradiction.
  destruct s; [contradiction |]. now exists m, e.
Qed.

Lemma div_eucl_pair (a b : Z) : Z.div_eucl a b = ((a / b)%Z, (a mod b)%Z).
Proof.
  unfold Z.div, Z.modulo. now destruct (Z.div_eucl a b).
Qed.

Lemma new_location_exact (nb : Z) : new_location nb 0 = loc_Exact.
Proof.
  unfold new_location, new_location_even, new_location_odd.
  now destruct (Z.even nb).
Qed.

(** A finite non-zero number divided by itself is 1. *)
Lemma SFdiv_self (s : bool) (m : positive) (e : Z) :
  SFdiv prec emax (S754_finite s m e) (S754_finite s m e) = Prim2SF 1.
Proof.
  assert (SFdiv_core_binary prec emax (Z.pos m) e (Z.pos m) e
          = ((2 ^ 53)%Z, (-53)%Z, loc_Exact)) as Hcore.
  { unfold SFdiv_core_binary. rewrite !Z.sub_diag.
    change (Z.min (fexp prec emax 0) 0) with (-53)%Z.
    change (0 - -53)%Z with 53%Z. cbv iota.
    rewrite Z.shiftl_mul_pow2 by lia.
    rewrite div_eucl_pair.
    rewrite (Z.mul_comm (Z.pos m)), Z.div_mul, Z.mod_mul by lia.
    now rewrite new_location_exact. }
  unfold SFdiv. rewrite Hcore. rewrite xorb_nilpotent.
  vm_compute. reflexivity.
Qed.

Lemma SFdiv_nonneg x y :
  finite_sf x -> nonneg_sf x -> positive_sf y ->
  nonneg_sf (SFdiv prec emax x y).
Proof.
  destruct x as [sx | sx | | sx mx ex], y as [sy | sy | | sy my ey];
    simpl; try tauto; intros _ Hx Hy; try (destruct sy; try tauto);
    subst; simpl; auto.
  pose proof (SFdiv_core_nonneg mx ex my ey) as Hq.
  destruct (SFdiv_core_binary prec emax (Z.pos mx) ex (Z.pos my) ey)
    as [[mz ez] lz].
  simpl in Hq. apply sign_false_nonneg.
  now apply binary_round_aux_signed.
Qed.

Lemma SFmul_hundred_nonneg x :
  nonneg_sf x -> nonneg_sf (SFmul prec emax x (Prim2SF 100)).
Proof.
  destruct Prim2SF_hundred as [m [e ->]].
  destruct x as [sx | sx | | sx mx ex]; simpl; intros Hx;
    try contradiction; subst; simpl; auto.
  apply sign_false_nonneg. apply binary_round_aux_signed. lia.
Qed.

Lemma of_uint63_nonneg n : nonneg_sf (Prim2SF (of_uint63 n)).
Proof.
  rewrite FloatAxioms.of_uint63_spec. unfold binary_normalize.
  pose proof (Uint63.to_Z_bounded n) as Hn.
  destruct (Uint63.to_Z n) as [| q | q].
  - exact I.
  - apply sign_false_nonneg, binary_round_signed.
  - lia.
Qed.

Lemma Math_round_nonneg (x : number) :
  nonneg_sf (Prim2SF x) -> nonneg_sf (Prim2SF (Math_round x)).
Proof.
  intros Hx. unfold Math_round.
  destruct (Prim2SF x) as [s | s | | s m e] eqn:E; try (rewrite E; exact Hx).
  destruct (0 <=? e)%Z eqn:He; [rewrite E; exact Hx |].
  simpl in Hx. subst s. cbv zeta.
  destruct (_ =? 0)%Z; [exact I |].
  destruct (_ <? 0)%Z eqn:Hneg; [| apply of_uint63_nonneg].
  exfalso. apply Z.ltb_lt in Hneg. apply Z.leb_gt in He.
  assert (0 < 2 ^ (- e))%Z by (apply Z.pow_pos_nonneg; lia).
  assert (0 <= (2 * Z.pos m + 2 ^ (- e)) / (2 * 2 ^ (- e)))%Z
    by (apply Z.div_pos; lia).
  lia.
Qed.

(** X5. With no correct answer the accuracy is 0, whatever [wrong] is. *)
Theorem accuracy_without_correct_answer (wrong : number) :
  accuracy 0 wrong = 0.
Proof.
  unfold accuracy, total.
  destruct (0 <? 0 + wrong) eqn:Ht; [| reflexivity].
  assert (0 / (0 + wrong) = 0) as ->; [| reflexivity].
  apply Prim2SF_inj. rewrite FloatAxioms.div_spec, Prim2SF_zero.
  apply positive_is_positive_sf in Ht.
  destruct (Prim2SF (0 + wrong)) as [s | s | | s m e]; simpl in *;
    try contradiction; destruct s; try contradiction; reflexivity.
Qed.

(** X6. With every answer correct (a finite positive [correct] and no
    wrong answer) the accuracy is 100. *)
Theorem accuracy_all_correct (correct : number) :
  is_finite correct = true ->
  (0 <? correct) = true ->
  accuracy correct 0 = 100.
Proof.
  intros Hfin Hpos.
  destruct (Prim2SF_positive_finite correct Hfin Hpos) as [m [e Hc]].
  assert (correct + 0 = correct) as Hsum.
  { apply Prim2SF_inj. rewrite FloatAxioms.add_spec, Prim2SF_zero, Hc.
    reflexivity. }
  assert (correct / correct = 1) as Hone.
  { apply Prim2SF_inj. rewrite FloatAxioms.div_spec, Hc.
    apply SFdiv_self. }
  unfold accuracy, total. rewrite Hsum, Hpos, Hone. reflexivity.
Qed.

Lemma accuracy_all_correct_witness : accuracy 37 0 = 100.
Proof.
  apply (accuracy_all_correct 37); reflexivity.
Defined.

(** X7. For a finite non-negative [correct] the accuracy is never
    negative (and so is a number), whatever [wrong] is. *)
Theorem accuracy_never_negative (correct wrong : number) :
  is_finite correct = true ->
  non_negative correct ->
  (0 <=? accuracy correct wrong) = true.
Proof.
  intros Hfin Hc. change (non_negative (accuracy correct wrong)).
  apply non_negative_sf. unfold accuracy, total.
  destruct (0 <? correct + wrong) eqn:Ht.
  - apply Math_round_nonneg. rewrite FloatAxioms.mul_spec.
    apply SFmul_hundred_nonneg. rewrite FloatAxioms.div_spec.
    apply SFdiv_nonneg.
    + now apply is_finite_sf.
    + now apply non_negative_sf.
    + now apply positive_is_positive_sf.
  - rewrite Prim2SF_zero. exact I.
Qed.

Lemma accuracy_never_negative_witness : (0 <=? accuracy 1 7) = true.
Proof.
  apply (accuracy_never_negative 1 7); reflexivity.
Defined.

End SummaryScale.

(* ================================================================== *)
(** * More on ConjugationResults: what reaches the screen *)
(* ================================================================== *)

Module ResultsViewFacts.
Import Conjugation ResultsView ConjugationFacts.

Local Open Scope list_scope.

Section ViewFacts.

Variable Category : Type.
Variable Category_eq_dec : forall a b : Category, {a = b} + {a <> b}.
Variable ConjugationForm : Type.
Variable category : ConjugationForm -> Category.
Variable Verb : Type.
Variable dictionaryForm : Verb -> string.
Variable ALL_CONJUGATION_CATEGORIES : list Category.

Abbreviation same := (same_category Category_eq_dec).
Abbreviation in_category := (of_category Category_eq_dec category).
Abbreviation has_forms fs :=
  (fun c => existsb (fun f => same (category f) c) fs).
Abbreviation sections result :=
  (rendered Category_eq_dec category ALL_CONJUGATION_CATEGORIES result).
Abbreviation shown_categories result :=
  (categoriesWithForms Category_eq_dec ALL_CONJUGATION_CATEGORIES
     (formsByCategory Category_eq_dec category result)).
Abbreviation Result := (ConjugationResult ConjugationForm Verb).

Lemma shown_categories_filter (result : option Result) :
  shown_categories result =
  filter (has_forms (forms_of result)) ALL_CONJUGATION_CATEGORIES.
Proof.
  unfold categoriesWithForms. apply filter_ext. intros c.
  rewrite has_forms_iff, formsByCategory_group, bucket_group.
  apply filter_nonempty_existsb.
Qed.

Lemma sections_map (result : option Result) :
  sections result =
  map (fun c => (c, in_category c (forms_of result)))
    (filter (has_forms (forms_of result)) ALL_CONJUGATION_CATEGORIES).
Proof.
  unfold rendered. rewrite shown_categories_filter. apply map_ext.
  intros c. now rewrite formsByCategory_group, bucket_group.
Qed.

Lemma has_forms_true fs c :
  has_forms fs c = true <-> exists f, In f fs /\ category f = c.
Proof.
  rewrite existsb_exists. split; intros [f [Hin H]]; exists f;
    (split; [exact Hin |]); now apply (same_true _ Category_eq_dec).
Qed.

Lemma has_forms_nonempty fs c :
  has_forms fs c = true <-> in_category c fs <> [].
Proof.
  unfold of_category. rewrite <- filter_nonempty_existsb.
  destruct (filter _ fs); split; congruence.
Qed.

(** Buckets without forms add nothing to what is shown. *)
Lemma concat_buckets_filter fs (l : list Category) :
  List.concat (map (fun c => in_category c fs) (filter (has_forms fs) l))
  = List.concat (map (fun c => in_category c fs) l).
Proof.
  induction l as [| c l IH]; [reflexivity |]. simpl.
  destruct (existsb _ fs) eqn:E; simpl; rewrite IH; [reflexivity |].
  destruct (in_category c fs) eqn:Eb; [reflexivity |].
  assert (has_forms fs c = true) as H
    by (apply has_forms_nonempty; congruence).
  simpl in H. congruence.
Qed.

Lemma shown_forms_concat (result : option Result) :
  List.concat (map snd (sections result)) =
  List.concat (map (fun c => in_category c (forms_of result))
                 ALL_CONJUGATION_CATEGORIES).
Proof.
  rewrite sections_map, map_map. simpl. apply concat_buckets_filter.
Qed.

Lemma split_by_category (a : Category) fs :
  Permutation fs
    (in_category a fs ++ filter (fun f => negb (same (category f) a)) fs).
Proof.
  unfold of_category. induction fs as [| f fs IH]; simpl.
  - reflexivity.
  - destruct (same (category f) a); simpl.
    + now constructor.
    + now apply Permutation_cons_app.
Qed.

Lemma in_category_of_others (a c : Category) fs :
  c <> a ->
  in_category c (filter (fun f => negb (same (category f) a)) fs)
  = in_category c fs.
Proof.
  intros Hne. unfold of_category. induction fs as [| f fs IH]; simpl.
  - reflexivity.
  - destruct (same (category f) a) eqn:Ea; simpl.
    + apply (same_true _ Category_eq_dec) in Ea.
      assert (same (category f) c = false) as ->
        by (apply (same_false _ Category_eq_dec); congruence).
      exact IH.
    + destruct (same (category f) c); [now rewrite IH | exact IH].
Qed.

Lemma buckets_of_table_permutation (l : list Category) :
  NoDup l ->
  forall fs,
    (forall f, In f fs -> In (category f) l) ->
    Permutation (List.concat (map (fun c => in_category c fs) l)) fs.
Proof.
  induction 1 as [| a l Hnotin Hnd IH]; intros fs Hcov.
  - destruct fs as [| f fs]; [reflexivity |].
    destruct (Hcov f (or_introl eq_refl)).
  - simpl. rewrite (split_by_category a fs) at 2.
    apply Permutation_app_head.
    set (others := filter (fun f => negb (same (category f) a)) fs).
    rewrite (map_ext_in _ (fun c => in_category c others)).
    + apply IH. intros f Hin. subst others.
      apply filter_In in Hin. destruct Hin as [Hin Hf]. cbv beta in Hf.
      destruct (Hcov f Hin) as [E | H]; [| exact H].
      rewrite <- E, (same_refl _ Category_eq_dec) in Hf. discriminate.
    + intros c Hc. symmetry. apply in_category_of_others.
      intros ->. contradiction.
Qed.

(** ** The properties *)

(** X8. No rendered section is empty, a rendered category belongs to the
    table, and a form of the result is rendered exactly when its category
    is in [ALL_CONJUGATION_CATEGORIES]: a form whose category is missing
    from the table is grouped but never shown. *)
Theorem shown_iff_category_in_table (result : option Result) :
  (forall c bucket,
     In (c, bucket)
       (rendered Category_eq_dec category ALL_CONJUGATION_CATEGORIES result) ->
     bucket <> [] /\ In c ALL_CONJUGATION_CATEGORIES)
  /\ (forall f,
        In f
          (List.concat
             (map snd
                (rendered Category_eq_dec category ALL_CONJUGATION_CATEGORIES
                   result))) <->
        In f (forms_of result)
        /\ In (category f) ALL_CONJUGATION_CATEGORIES).
Proof.
  split.
  - intros c bucket Hin. rewrite sections_map in Hin.
    apply in_map_iff in Hin. destruct Hin as [c' [E Hc']].
    injection E as -> <-. apply filter_In in Hc'.
    destruct Hc' as [Hall Hhas]. split; [| exact Hall].
    now apply has_forms_nonempty.
  - intros f. rewrite shown_forms_concat, in_concat. split.
    + intros [bucket [Hb Hf]]. apply in_map_iff in Hb.
      destruct Hb as [c [<- Hc]].
      apply (in_category_In _ Category_eq_dec) in Hf.
      destruct Hf as [Hf Hcat]. split; [exact Hf | now rewrite Hcat].
    + intros [Hf Hcat]. exists (in_category (category f) (forms_of result)).
      split.
      * apply in_map_iff. now exists (category f).
      * now apply (in_category_In _ Category_eq_dec).
Qed.

(** X9. When the table lists every category once and covers the category
    of every form, the sections together show the forms of the result,
    each once, so the footer's [result.forms.length] is the number of
    forms on screen. *)
Theorem sections_show_every_form_once (r : Result) :
  NoDup ALL_CONJUGATION_CATEGORIES ->
  (forall f, In f (forms r) -> In (category f) ALL_CONJUGATION_CATEGORIES) ->
  exists shown,
    view Category_eq_dec category ALL_CONJUGATION_CATEGORIES (Some r) false
    = Results shown (List.length (forms r))
    /\ Permutation (List.concat (map snd shown)) (forms r)
    /\ List.length (List.concat (map snd shown)) = List.length (forms r).
Proof.
  intros Hnd Hcov. exists (sections (Some r)).
  split; [reflexivity |].
  assert (Permutation (List.concat (map snd (sections (Some r)))) (forms r))
    as Hperm.
  { rewrite shown_forms_concat.
    now apply buckets_of_table_permutation. }
  split; [exact Hperm | now apply Permutation_length].
Qed.

(** X10. When the table lists every category once, the keys of the
    rendered sections ([key={category}]) are distinct. *)
Theorem section_keys_distinct (result : option Result) :
  NoDup ALL_CONJUGATION_CATEGORIES ->
  NoDup
    (map fst
       (rendered Category_eq_dec category ALL_CONJUGATION_CATEGORIES result)).
Proof.
  intros Hnd. rewrite sections_map, map_map. simpl. rewrite map_id.
  now apply NoDup_filter.
Qed.

Lemma includes_In (expanded : list Category) (c : Category) :
  includes Category_eq_dec expanded c = true <-> In c expanded.
Proof.
  unfold includes. rewrite existsb_exists. split.
  - intros [x [Hin H]]. apply (same_true _ Category_eq_dec) in H.
    now subst.
  - intros Hin. exists c. split; [exact Hin |].
    apply (same_refl _ Category_eq_dec).
Qed.

(** X11. [allExpanded] holds exactly when the category of every form of
    the result that is in the table is among the expanded categories;
    categories without forms do not count.  So for a result without forms
    it holds whatever is expanded and the button is wired to
    [onCollapseAll], and it holds once every category of the table is
    expanded. *)
Theorem allExpanded_iff (result : option Result) (expanded : list Category) :
  let categories :=
    categoriesWithForms Category_eq_dec ALL_CONJUGATION_CATEGORIES
      (formsByCategory Category_eq_dec category result) in
  (allExpanded Category_eq_dec categories expanded = true <->
   forall f,
     In f (forms_of result) ->
     In (category f) ALL_CONJUGATION_CATEGORIES ->
     In (category f) expanded)
  /\ (forms_of result = [] ->
      toggle_onClick (allExpanded Category_eq_dec categories expanded)
      = onCollapseAll)
  /\ (incl ALL_CONJUGATION_CATEGORIES expanded ->
      allExpanded Category_eq_dec categories expanded = true).
Proof.
  intros categories. subst categories.
  assert (allExpanded Category_eq_dec (shown_categories result) expanded
          = true <->
          forall f,
            In f (forms_of result) ->
            In (category f) ALL_CONJUGATION_CATEGORIES ->
            In (category f) expanded) as Hiff.
  { unfold allExpanded. rewrite forallb_forall, shown_categories_filter.
    split.
    - intros H f Hf Hcat. apply includes_In. apply H.
      apply filter_In. split; [exact Hcat |].
      apply has_forms_true. now exists f.
    - intros H c Hc. apply filter_In in Hc. destruct Hc as [Hall Hhas].
      apply has_forms_true in Hhas. destruct Hhas as [f [Hf <-]].
      apply includes_In. now apply H. }
  split; [exact Hiff |]. split.
  - intros Hempty.
    assert (allExpanded Category_eq_dec (shown_categories result) expanded
            = true) as ->; [| reflexivity].
    apply Hiff. intros f Hf. rewrite Hempty in Hf. destruct Hf.
  - intros Hincl. apply Hiff. intros f _ Hcat. now apply Hincl.
Qed.

(** X12. The completion of a result is announced once per result object:
    after the effect has run for it the reference holds that object, a
    further run for the same object while not loading changes nothing,
    and a new object is announced as complete even while [isLoading]. *)
Theorem completion_announced_once
  (st : Announcer) (o : ResultObject ConjugationForm Verb)
  (isLoading : bool) :
  let effect :=
    status_effect Category_eq_dec category dictionaryForm
      ALL_CONJUGATION_CATEGORIES in
  previousResultRef (effect st (Some o) isLoading) = Some (address o)
  /\ effect (effect st (Some o) isLoading) (Some o) false
     = effect st (Some o) isLoading
  /\ (same_object o (previousResultRef st) = false ->
      statusMessage (effect st (Some o) true)
      <> "Conjugating verb, please wait..."
      /\ statusMessage (effect st (Some o) true)
         = statusMessage (effect st (Some o) false)).
Proof.
  intros effect. subst effect.
  assert (forall l,
            previousResultRef
              (status_effect Category_eq_dec category dictionaryForm
                 ALL_CONJUGATION_CATEGORIES st (Some o) l)
            = Some (address o)) as Href.
  { intros l. unfold status_effect.
    destruct (same_object o (previousResultRef st)) eqn:E; simpl.
    - unfold same_object in E.
      destruct (previousResultRef st) as [a|] eqn:Ea; [| discriminate].
      apply Nat.eqb_eq in E. subst a.
      destruct l; simpl; [reflexivity | exact Ea].
    - reflexivity. }
  split; [apply Href |]. split.
  - unfold status_effect at 1. rewrite Href.
    unfold same_object. now rewrite Nat.eqb_refl.
  - intros Hnew. unfold status_effect. rewrite Hnew. simpl.
    split; [discriminate | reflexivity].
Qed.

End ViewFacts.

Lemma sections_show_every_form_once_witness :
  List.length
    (List.concat
       (map snd
          (rendered Nat.eq_dec fst [0; 1; 2]
             (Some (mkResult tt [(1, "taberu"); (0, "tabenai"); (1, "tabeta")])))))
  = 3.
Proof.
  destruct (sections_show_every_form_once nat Nat.eq_dec (nat * string) fst
              unit [0; 1; 2]
              (mkResult tt [(1, "taberu"); (0, "tabenai"); (1, "tabeta")]))
    as [shown [Hview [_ Hlen]]].
  - repeat constructor; simpl; intuition discriminate.
  - intros f [<- | [<- | [<- | []]]]; simpl; auto.
  - injection Hview as <-. exact Hlen.
Defined.

Lemma section_keys_distinct_witness :
  NoDup
    (map fst
       (rendered Nat.eq_dec fst [0; 1; 2]
          (Some (mkResult tt [(1, "taberu"); (0, "tabenai"); (1, "tabeta")])))).
Proof.
  apply (section_keys_distinct nat Nat.eq_dec (nat * string) fst unit
           [0; 1; 2]
           (Some (mkResult tt [(1, "taberu"); (0, "tabenai"); (1, "tabeta")]))).
  repeat constructor; simpl; intuition discriminate.
Defined.

End ResultsViewFacts.

(* ================================================================== *)
(** * Properties of the verb input *)
(* ================================================================== *)

Module ConjugatorInputFacts.
Import ConjugatorInput.

Local Open Scope list_scope.

(** ** Trimming *)

Lemma trimStart_nil (s : JsString) :
  trimStart s = [] <-> forallb is_white_space s = true.
Proof.
  induction s as [| c s IH]; simpl.
  - tauto.
  - destruct (is_white_space c); simpl; [exact IH |].
    split; discriminate.
Qed.

Lemma trimStart_head (s : JsString) c rest :
  trimStart s = c :: rest -> is_white_space c = false.
Proof.
  induction s as [| a s IH]; simpl; [discriminate |].
  destruct (is_white_space a) eqn:E; [exact IH |].
  intros H. injection H as <- _. exact E.
Qed.

Lemma trimStart_fixed (s : JsString) :
  forallb is_white_space (trimStart s) = true -> trimStart s = [].
Proof.
  destruct (trimStart s) as [| c rest] eqn:E; [reflexivity |].
  simpl. rewrite (trimStart_head s c rest E). discriminate.
Qed.

Lemma forallb_rev {A : Type} (p : A -> bool) (l : list A) :
  forallb p (rev l) = forallb p l.
Proof.
  destruct (forallb p l) eqn:E.
  - apply forallb_forall. intros x Hx. apply in_rev in Hx.
    now apply (proj1 (forallb_forall p l) E).
  - destruct (forallb p (rev l)) eqn:E'; [| reflexivity].
    rewrite <- E. symmetry. apply forallb_forall. intros x Hx.
    apply (proj1 (forallb_forall p (rev l)) E'). now apply in_rev in Hx.
Qed.

Lemma rev_nil_iff {A : Type} (l : list A) : rev l = [] <-> l = [].
Proof.
  split; [| now intros ->].
  intros H. apply (f_equal (@rev A)) in H. now rewrite rev_involutive in H.
Qed.

Lemma trim_nil (s : JsString) :
  trim s = [] <-> forallb is_white_space s = true.
Proof.
  unfold trim, trimEnd. split.
  - intros H. apply (proj1 (rev_nil_iff _)) in H.
    apply (proj1 (trimStart_nil _)) in H.
    rewrite forallb_rev in H. apply trimStart_fixed in H.
    exact (proj1 (trimStart_nil s) H).
  - intros H. apply (proj2 (trimStart_nil s)) in H. now rewrite H.
Qed.

Lemma length_trimStart (s : JsString) :
  List.length (trimStart s) <= List.length s.
Proof.
  induction s as [| c s IH]; simpl; [lia |].
  destruct (is_white_space c); simpl; lia.
Qed.

Lemma length_trim (s : JsString) : List.length (trim s) <= List.length s.
Proof.
  unfold trim, trimEnd. rewrite length_rev.
  pose proof (length_trimStart (rev (trimStart s))) as H1.
  rewrite length_rev in H1.
  pose proof (length_trimStart s). lia.
Qed.

Lemma nonempty_length {A : Type} (l : list A) :
  Nat.ltb 0 (List.length l) = true <-> l <> [].
Proof.
  unfold Nat.ltb. destruct l; simpl; split; congruence.
Qed.

Lemma not_all_white_space (s : JsString) :
  forallb is_white_space s <> true <->
  exists c, In c s /\ is_white_space c = false.
Proof.
  induction s as [| a s IH]; simpl.
  - split; [congruence | intros [c [[] _]]].
  - destruct (is_white_space a) eqn:E; simpl.
    + rewrite IH. split.
      * intros [c [Hin Hc]]. exists c. auto.
      * intros [c [[<- | Hin] Hc]]; [congruence | now exists c].
    + split; [| discriminate]. intros _. exists a. auto.
Qed.

(** ** The properties *)

(** X13. Conjugation is possible exactly when nothing is loading and the
    value holds a code unit that [trim] does not strip; in particular a
    value made of ideographic spaces (U+3000) only cannot be conjugated. *)
Theorem canConjugate_iff (value : JsString) (isLoading : bool) :
  (canConjugate value isLoading = true <->
   isLoading = false
   /\ exists c, In c value /\ is_white_space c = false)
  /\ (forall n, canConjugate (repeat 12288%N n) isLoading = false).
Proof.
  assert (canConjugate value isLoading = true <->
          isLoading = false
          /\ exists c, In c value /\ is_white_space c = false) as Hiff.
  { unfold canConjugate.
    rewrite andb_true_iff, negb_true_iff, nonempty_length.
    rewrite <- not_all_white_space, <- trim_nil. tauto. }
  split; [exact Hiff |].
  intros n. unfold canConjugate.
  assert (trim (repeat 12288%N n) = []) as ->; [| reflexivity].
  apply trim_nil. apply forallb_forall. intros c Hc.
  now rewrite (repeat_spec _ _ _ Hc).
Qed.

(** X14. A key press triggers [onConjugate] exactly when the key is Enter
    and the Conjugate button is enabled: the keyboard cannot start a
    conjugation the button would refuse. *)
Theorem enter_conjugates_iff_button_enabled
  (value : JsString) (isLoading : bool) (key : string) :
  In onConjugate (handleKeyDown value isLoading key) <->
  key = "Enter"%string /\ button_disabled value isLoading = false.
Proof.
  unfold handleKeyDown, button_disabled.
  destruct (String.eqb_spec key "Enter") as [-> | Hne].
  - destruct (canConjugate value isLoading); simpl;
      intuition (try discriminate; auto).
  - destruct (String.eqb key "Escape"); simpl.
    + destruct (Nat.ltb 0 (List.length value)); simpl;
        intuition (try discriminate; auto).
    + intuition.
Qed.

(** X15. The key handler prevents the default action for Enter and Escape
    only; it only ever changes the value to the empty string, and only on
    Escape with a non-empty value, loading or not; any other key does
    nothing. *)
Theorem key_handler_effects
  (value : JsString) (isLoading : bool) (key : string) :
  (In preventDefault (handleKeyDown value isLoading key) <->
   key = "Enter"%string \/ key = "Escape"%string)
  /\ (forall v,
        In (onChange v) (handleKeyDown value isLoading key) <->
        v = [] /\ key = "Escape"%string /\ value <> [])
  /\ (key <> "Enter"%string -> key <> "Escape"%string ->
      handleKeyDown value isLoading key = [])
  /\ handleKeyDown value true "Escape" = handleKeyDown value false "Escape".
Proof.
  unfold handleKeyDown.
  destruct (String.eqb_spec key "Enter") as [-> | Hne].
  - destruct (canConjugate value isLoading); simpl;
      repeat split; intros; intuition (try discriminate; try congruence).
  - destruct (String.eqb_spec key "Escape") as [-> | Hne'].
    + destruct value as [| c value]; simpl;
        repeat split; intros; intuition (try discriminate; try congruence).
    + simpl. repeat split; intros; intuition.
Qed.

(** X16. Whenever the Conjugate button is enabled, the clear button is
    rendered. *)
Theorem clear_button_when_can_conjugate (value : JsString) (isLoading : bool) :
  canConjugate value isLoading = true ->
  clear_button_rendered value isLoading = true.
Proof.
  unfold canConjugate, clear_button_rendered, isDisabled.
  rewrite !andb_true_iff, !Nat.ltb_lt. intros [Hlen Hl].
  pose proof (length_trim value). split; [lia | exact Hl].
Qed.

Lemma clear_button_when_can_conjugate_witness :
  clear_button_rendered [39135; 12409; 12427]%N false = true.
Proof.
  apply (clear_button_when_can_conjugate [39135; 12409; 12427]%N false).
  reflexivity.
Defined.

Lemma message_or_nonempty (error : ConjugationError) (fallback : string) :
  fallback <> ""%string -> message_or error fallback <> ""%string.
Proof.
  intros Hf. unfold message_or.
  destruct (message error) as [m|]; [| exact Hf]. simpl.
  destruct (String.eqb_spec m ""); simpl; assumption.
Qed.

(** X17. The text of the error alert is never empty, whatever the code
    and the message of the error are. *)
Theorem getErrorMessage_nonempty (error : ConjugationError) :
  getErrorMessage error <> ""%string.
Proof.
  unfold getErrorMessage.
  repeat match goal with
         | |- context [if ?b then _ else _] => destruct b
         end;
    try discriminate; apply message_or_nonempty; discriminate.
Qed.

(** X18. Every id the input names in [aria-describedby] is the id of an
    element rendered beside it, and the input is marked invalid exactly
    when the alert is rendered. *)
Theorem aria_references_rendered (error : option ConjugationError) :
  (forall id,
     In id (id_tokens (aria_describedby error)) -> In id (rendered_ids error))
  /\ (aria_invalid error = true <-> In "input-error"%string (rendered_ids error))
  /\ (aria_invalid error = true <-> alert_text error <> None).
Proof.
  destruct error as [e|]; simpl.
  - split; [| split].
    + vm_compute. tauto.
    + split; auto.
    + split; [discriminate | reflexivity].
  - split; [| split].
    + vm_compute. tauto.
    + split; [discriminate |]. intros [H | []]. discriminate.
    + split; [discriminate | congruence].
Qed.

End ConjugatorInputFacts.
